(** * keras_cv.utils.preprocessing

    A shallow embedding of [keras_cv/utils/preprocessing.py]:

    - [transform_value_range] and its helper [_unwrap_value_range], the
      affine remapping of pixel values from one value range to another;
    - [transform], the wrapper around TensorFlow's
      [ImageProjectiveTransformV3] operator.

    Python exceptions and the TensorFlow operations a call executes are
    modelled by a small writer/error monad: a computation yields the list of
    operations it ran, in program order, and either an exception or a value.
    Floating-point dtypes are the IEEE formats of the standard library's
    [SpecFloat] (round to nearest even), so the arithmetic of the embedding
    computes bit for bit.  Statements on rounding errors compare the floats
    with the rationals they stand for. *)

From Stdlib Require Import ZArith QArith Qabs Qpower Qfield List Bool String
  Ascii Lia.
From Stdlib Require Import DecimalString Lqa.
From Stdlib Require Import Floats.SpecFloat.
Import ListNotations.

Close Scope Q_scope.
Set Implicit Arguments.

(** ** Exceptions and the operation log *)

Module Py.

(** [InvalidArgumentError] stands for the errors of TensorFlow's operators
    ([tf.errors.InvalidArgumentError] and the like). *)
Inductive exn : Type :=
| ValueError (msg : string)
| TypeError (msg : string)
| InvalidArgumentError (msg : string).

(** [M E A]: the operations of type [E] executed so far, and the outcome. *)
Definition M (E A : Type) : Type := (list E * (exn + A))%type.

Definition ret {E A} (x : A) : M E A := ([], inr x).

Definition raise {E A} (e : exn) : M E A := ([], inl e).

Definition emit {E} (ev : E) : M E unit := ([ev], inr tt).

Definition bind {E A B} (m : M E A) (k : A -> M E B) : M E B :=
  match m with
  | (log, inl e) => (log, inl e)
  | (log, inr a) => let (log', r) := k a in (log ++ log', r)
  end.

Definition trace {E A} (m : M E A) : list E := fst m.
Definition result {E A} (m : M E A) : exn + A := snd m.

End Py.

Import Py.

Declare Scope py_scope.
Delimit Scope py_scope with py.
Notation "x <- m ;; k" := (bind m (fun x => k))
  (at level 61, m at next level, right associativity) : py_scope.
Notation "' pat <- m ;; k" := (bind m (fun x => match x with pat => k end))
  (at level 61, pat pattern, m at next level, right associativity) : py_scope.
Notation "m ;;; k" := (bind m (fun _ => k))
  (at level 61, right associativity) : py_scope.

(** ** Tensors *)

(** A dense tensor: its shape and its elements in row-major order. *)
Record Tensor (A : Type) : Type := mkTensor {
  shape : list nat;
  data : list A
}.

Definition tmap {A B} (f : A -> B) (t : Tensor A) : Tensor B :=
  {| shape := shape t; data := map f (data t) |}.

(** ** Compute dtypes *)

(** What [transform_value_range] needs of a compute dtype: [tf.cast] from the
    element type [S] of the inputs, and the four operators of lines 54-57. *)
Record DType (S T : Type) : Type := mkDType {
  cast : S -> T;
  sub : T -> T -> T;
  truediv : T -> T -> T;
  mul : T -> T -> T;
  add : T -> T -> T
}.

(** TensorFlow's floating-point dtypes, as IEEE formats. *)
Inductive float_format : Type := Float16 | BFloat16 | Float32 | Float64.

Definition prec (fmt : float_format) : Z :=
  match fmt with
  | Float16 => 11 | BFloat16 => 8 | Float32 => 24 | Float64 => 53
  end%Z.

Definition emax (fmt : float_format) : Z :=
  match fmt with
  | Float16 => 16 | BFloat16 => 128 | Float32 => 128 | Float64 => 1024
  end%Z.

(** A number as a caller supplies it: a Python or tensor integer, or a
    floating-point value of any format. *)
Inductive scalar : Type :=
| SInt (z : Z)
| SFloat (f : spec_float).

(** The float of format [fmt] nearest to [m * 2^e]. *)
Definition dyadic (fmt : float_format) (m e : Z) : spec_float :=
  binary_normalize (prec fmt) (emax fmt) m e false.

(** [tf.cast(v, dtype)] for a floating-point [dtype]. *)
Definition cast_float (fmt : float_format) (v : scalar) : spec_float :=
  match v with
  | SInt z => dyadic fmt z 0
  | SFloat (S754_finite s m e) => binary_round (prec fmt) (emax fmt) s m e
  | SFloat f => f
  end.

Definition ieee (fmt : float_format) : DType scalar spec_float :=
  {| cast := cast_float fmt;
     sub := SFsub (prec fmt) (emax fmt);
     truediv := SFdiv (prec fmt) (emax fmt);
     mul := SFmul (prec fmt) (emax fmt);
     add := SFadd (prec fmt) (emax fmt) |}.

(** The default of the [dtype] argument. *)
Definition float32 : DType scalar spec_float := ieee Float32.

(** ** transform_value_range *)

(** The TensorFlow operations [transform_value_range] executes. *)
Inductive tf_op : Type := OpCast | OpSub | OpTrueDiv | OpMul | OpAdd.

Definition is_arithmetic (op : tf_op) : bool :=
  match op with
  | OpCast => false
  | _ => true
  end.

Section ValueRange.

Variables S T : Type.
Variable dtype : DType S T.

Local Open Scope py_scope.

Definition tf_cast (v : S) : M tf_op T :=
  emit OpCast ;;; ret (cast dtype v).

Definition tf_cast_tensor (t : Tensor S) : M tf_op (Tensor T) :=
  emit OpCast ;;; ret (tmap (cast dtype) t).

(** A scalar operator, [a op b]. *)
Definition scalar_op (ev : tf_op) (f : T -> T -> T) (a b : T) : M tf_op T :=
  emit ev ;;; ret (f a b).

(** A tensor and a scalar, [t op b]: the scalar is broadcast. *)
Definition tensor_op (ev : tf_op) (f : T -> T -> T) (t : Tensor T) (b : T)
  : M tf_op (Tensor T) :=
  emit ev ;;; ret (tmap (fun v => f v b) t).

(** Lines 60-64. [min_value, max_value = value_range] raises [ValueError]
    unless the sequence holds exactly two items. *)
Definition _unwrap_value_range (value_range : list S) : M tf_op (T * T) :=
  match value_range with
  | [min_value; max_value] =>
      min_value <- tf_cast min_value ;;
      max_value <- tf_cast max_value ;;
      ret (min_value, max_value)
  | [] => raise (ValueError "not enough values to unpack (expected 2, got 0)")
  | [_] => raise (ValueError "not enough values to unpack (expected 2, got 1)")
  | _ => raise (ValueError "too many values to unpack (expected 2)")
  end.

(** Lines 47-57. *)
Definition transform_value_range
    (images : Tensor S) (original_range target_range : list S)
  : M tf_op (Tensor T) :=
  images <- tf_cast_tensor images ;;
  '(original_min_value, original_max_value) <-
     _unwrap_value_range original_range ;;
  '(target_min_value, target_max_value) <-
     _unwrap_value_range target_range ;;
  shifted <- tensor_op OpSub (sub dtype) images original_min_value ;;
  width <- scalar_op OpSub (sub dtype) original_max_value original_min_value ;;
  images <- tensor_op OpTrueDiv (truediv dtype) shifted width ;;
  scale_factor <- scalar_op OpSub (sub dtype) target_max_value target_min_value ;;
  scaled <- tensor_op OpMul (mul dtype) images scale_factor ;;
  tensor_op OpAdd (add dtype) scaled target_min_value.

(** The value the specification gives for one element [v]. *)
Definition remapped (orig_min orig_max target_min target_max v : S) : T :=
  add dtype
    (mul dtype
       (truediv dtype
          (sub dtype (cast dtype v) (cast dtype orig_min))
          (sub dtype (cast dtype orig_max) (cast dtype orig_min)))
       (sub dtype (cast dtype target_max) (cast dtype target_min)))
    (cast dtype target_min).

End ValueRange.

(** ** TensorFlow shapes and tensor handles *)

(** A [TensorShape]: the rank may be unknown, and so may each dimension. *)
Inductive TensorShape : Type :=
| UnknownRank
| Dims (dims : list (option nat)).

Definition dim_compatible (a b : option nat) : bool :=
  match a, b with
  | Some x, Some y => Nat.eqb x y
  | _, _ => true
  end.

Fixpoint dims_compatible (a b : list (option nat)) : bool :=
  match a, b with
  | [], [] => true
  | x :: a', y :: b' => dim_compatible x y && dims_compatible a' b'
  | _, _ => false
  end.

(** [TensorShape.is_compatible_with]: some fully defined shape is
    represented by both. *)
Definition is_compatible_with (s other : TensorShape) : bool :=
  match s, other with
  | Dims a, Dims b => dims_compatible a b
  | _, _ => true
  end.

Definition fully_defined (dims : list nat) : TensorShape :=
  Dims (map Some dims).

(** A [tf.Tensor]: the shape known when the call is traced, and the value the
    tensor holds when it is executed. An eager tensor's static shape is the
    shape of its value. *)
Record TFTensor (A : Type) : Type := mkTFTensor {
  static_shape : TensorShape;
  value : Tensor A
}.

Definition well_shaped {A} (t : TFTensor A) : Prop :=
  is_compatible_with (static_shape t) (fully_defined (shape (value t))) = true.

(** [t.get_shape()]. *)
Definition get_shape {A} (t : TFTensor A) : TensorShape := static_shape t.

(** What a caller may pass as [output_shape] (besides [None]): a list, tuple
    or array of integers with a rectangular shape, or an int32 tensor.
    Arguments that [tf.convert_to_tensor] itself rejects (entries that are
    not integers or do not fit int32, ragged sequences) are outside the
    model. *)
Inductive shape_arg : Type :=
| ArrayLike (a : Tensor Z)
| TensorArg (t : TFTensor Z).

(** [tf.convert_to_tensor(output_shape, tf.int32)]. *)
Definition convert_to_tensor (x : shape_arg) : TFTensor Z :=
  match x with
  | ArrayLike a => {| static_shape := fully_defined (shape a); value := a |}
  | TensorArg t => t
  end.

(** Python's [l[start:stop]] for [start <= stop], both non-negative. *)
Definition py_slice {A} (start stop : nat) (l : list A) : list A :=
  skipn start (firstn stop l).

(** [t[start:stop]] on a vector [t]; a dimension that is not known
    statically stays unknown. *)
Definition vector_slice (start stop : nat) (t : TFTensor Z) : TFTensor Z :=
  {| static_shape :=
       match static_shape t with
       | Dims (Some n :: rest) => Dims (Some (Nat.min stop n - start) :: rest)
       | s => s
       end;
     value :=
       {| shape := [List.length (py_slice start stop (data (value t)))];
          data := py_slice start stop (data (value t)) |} |}.

(** [str.upper] on ASCII text; characters outside [a-z] are kept. *)
Definition upper_ascii (c : ascii) : ascii :=
  let n := nat_of_ascii c in
  if (97 <=? n)%nat && (n <=? 122)%nat then ascii_of_nat (n - 32) else c.

Fixpoint upper (s : string) : string :=
  match s with
  | EmptyString => EmptyString
  | String c s' => String (upper_ascii c) (upper s')
  end.

(** Python's [name or default] on an optional string. *)
Definition py_or (name : option string) (default : string) : string :=
  match name with
  | None => default
  | Some EmptyString => default
  | Some s => s
  end.

(** ** transform *)

(** The keyword arguments of [tf.raw_ops.ImageProjectiveTransformV3]. *)
Record op_args : Type := mkArgs {
  arg_images : TFTensor scalar;
  arg_output_shape : TFTensor Z;
  arg_fill_value : spec_float;
  arg_transforms : TFTensor scalar;
  arg_fill_mode : string;
  arg_interpolation : string
}.

(** One invocation of the operator, with the name scope it ran under. *)
Record op_call : Type := mkCall {
  call_scope : string;
  call_args : op_args
}.

Definition output_shape_error : string :=
  "output_shape must be a 1-D Tensor of 2 elements: new_height, new_width, instead got ".

Section Transform.

(** The operator the wrapper delegates to; it may raise. *)
Variable ImageProjectiveTransformV3 : op_args -> exn + TFTensor scalar.
(** [tf.executing_eagerly()]. *)
Variable executing_eagerly : bool.
(** [tf.get_static_value]: the value of a tensor when TensorFlow can
    compute it without running the graph, [None] otherwise. *)
Variable get_static_value : TFTensor Z -> option (Tensor Z).
(** [str] of an int32 tensor, as ["{}".format] renders it. *)
Variable tensor_str : TFTensor Z -> string.

Local Open Scope py_scope.

(** [tf.shape(images)]: a vector that holds the shape of [images] when it
    runs; its length is known statically when the rank of [images] is. *)
Definition tf_shape (images : TFTensor scalar) : TFTensor Z :=
  let dims := shape (value images) in
  {| static_shape :=
       if executing_eagerly then Dims [Some (List.length dims)]
       else match static_shape images with
            | Dims ds => Dims [Some (List.length ds)]
            | UnknownRank => Dims [None]
            end;
     value := {| shape := [List.length dims]; data := map Z.of_nat dims |} |}.

(** Lines 132-139: the [output_shape] tensor that is checked and passed on. *)
Definition resolve_output_shape
    (images : TFTensor scalar) (output_shape : option shape_arg)
  : TFTensor Z :=
  let output_shape :=
    match output_shape with
    | None =>
        let output_shape := vector_slice 1 3 (tf_shape images) in
        if negb executing_eagerly then
          match get_static_value output_shape with
          | Some output_shape_value => ArrayLike output_shape_value
          | None => TensorArg output_shape
          end
        else TensorArg output_shape
    | Some given => given
    end in
  convert_to_tensor output_shape.

(** Calling the operator: the call is logged, the outcome is the operator's. *)
Definition invoke (scope : string) (a : op_args)
  : M op_call (TFTensor scalar) :=
  ([{| call_scope := scope; call_args := a |}], ImageProjectiveTransformV3 a).

(** Lines 131-157. *)
Definition transform
    (images transforms : TFTensor scalar)
    (fill_mode : string) (fill_value : scalar) (interpolation : string)
    (output_shape : option shape_arg) (name : option string)
  : M op_call (TFTensor scalar) :=
  let scope := py_or name "transform" in
  let output_shape := resolve_output_shape images output_shape in
  if negb (is_compatible_with (get_shape output_shape) (Dims [Some 2])) then
    raise (ValueError (output_shape_error ++ tensor_str output_shape)%string)
  else
    let fill_value := cast_float Float32 fill_value in
    invoke scope
      {| arg_images := images;
         arg_output_shape := output_shape;
         arg_fill_value := fill_value;
         arg_transforms := transforms;
         arg_fill_mode := upper fill_mode;
         arg_interpolation := upper interpolation |}.

(** What the operator promises about the shape of its result: the batch
    and channel sizes of [images], the height and width of [output_shape]. *)
Definition op_shape_contract : Prop :=
  forall a r n h w c oh ow,
    ImageProjectiveTransformV3 a = inr r ->
    shape (value (arg_images a)) = [n; h; w; c] ->
    data (value (arg_output_shape a)) = [Z.of_nat oh; Z.of_nat ow] ->
    shape (value r) = [n; oh; ow; c].

(** [tf.get_static_value] never invents a value. *)
Definition static_value_sound : Prop :=
  forall t v, get_static_value t = Some v -> v = value t.

End Transform.

(** ** Floating-point classes *)

Definition is_finite (f : spec_float) : bool :=
  match f with
  | S754_zero _ | S754_finite _ _ _ => true
  | S754_infinity _ | S754_nan => false
  end.

(** The rational a finite float stands for. *)
Definition float_value (f : spec_float) : option Q :=
  match f with
  | S754_zero _ => Some 0%Q
  | S754_finite s m e =>
      Some ((if s then -1 else 1) * inject_Z (Zpos m) * 2 ^ e)%Q
  | S754_infinity _ | S754_nan => None
  end.

(** The same rational in lowest terms. *)
Definition exact_value (f : spec_float) : option Q :=
  option_map Qred (float_value f).

Definition zero_or_nan (f : spec_float) : bool :=
  match f with
  | S754_zero _ | S754_nan => true
  | _ => false
  end.

(** An [original_range] is degenerate for a format when its bounds, cast to
    the format, are the same float or compare equal (as [0.0] and [-0.0]). *)
Definition degenerate (fmt : float_format) (orig_min orig_max : scalar) : Prop :=
  cast_float fmt orig_max = cast_float fmt orig_min \/
  SFeqb (cast_float fmt orig_max) (cast_float fmt orig_min) = true.

(** A call followed by the inverse call, as in the docstring's usage. *)
Definition round_trip {S T} (dtype : DType S T) (back : T -> S)
    (images : Tensor S) (range_a range_b : list S) : M tf_op (Tensor T) :=
  bind (transform_value_range dtype images range_a range_b)
       (fun y => transform_value_range dtype (tmap back y) range_b range_a).

(** The rank of [images] is known where [transform] reads it: always in
    eager mode, from the static shape in graph mode. *)
Definition known_rank (executing_eagerly : bool) (images : TFTensor scalar)
  : bool :=
  executing_eagerly ||
  match static_shape images with
  | Dims _ => true
  | UnknownRank => false
  end.

(** The 256 values of an 8-bit image, as one tensor. *)
Definition byte_values : Tensor scalar :=
  {| shape := [256%nat];
     data := map (fun n => SInt (Z.of_nat n)) (seq 0 256) |}.

(** ** Rounding *)

(** The position of a real number [x] between the integers [m] and [m + 1],
    as the [location] type of [SpecFloat] records it. *)
Definition inbetween (m : Z) (x : Q) (l : location) : Prop :=
  match l with
  | loc_Exact => (x == inject_Z m)%Q
  | loc_Inexact Lt => (inject_Z m < x /\ x < inject_Z m + (1 # 2))%Q
  | loc_Inexact Eq => (x == inject_Z m + (1 # 2))%Q
  | loc_Inexact Gt => (inject_Z m + (1 # 2) < x /\ x < inject_Z m + 1)%Q
  end.

(** [m * 2^e] is [x * 2^ex] rounded to a nearest multiple of [2^e]. *)
Definition rounded (ex : Z) (x : Q) (m e : Z) : Prop :=
  exists n y, (0 <= n)%Z /\ e = (ex + n)%Z /\
              (y * inject_Z (2 ^ n) == x)%Q /\
              (- (1 # 2) <= inject_Z m - y <= 1 # 2)%Q.

Definition sgn (s : bool) : Q := if s then -1 else 1.

(** The unit roundoff of a format, and half its smallest positive number. *)
Definition unit_roundoff (prec : Z) : Q := 2 ^ (- prec).
Definition half_step (prec emax : Z) : Q := 2 ^ (emin prec emax - 1).

(** [r] is what rounding the real number [t] to the format may give: a valid
    float within half a unit in the last place of [t], or an infinity when
    [t] is out of range. *)
Definition rounds_to (prec emax : Z) (t : Q) (r : spec_float) : Prop :=
  valid_binary prec emax r = true /\
  match r with
  | S754_zero _ => (Qabs t <= half_step prec emax)%Q
  | S754_finite s m e =>
      (Qabs (sgn s * inject_Z (Z.pos m) * 2 ^ e - t)
       <= unit_roundoff prec * (inject_Z (Z.pos m) * 2 ^ e)
          + half_step prec emax)%Q
  | S754_infinity _ => (2 ^ (emax - 1) <= Qabs t)%Q
  | S754_nan => False
  end.

(** ** Sample collaborators

    Instances of what [transform] takes from TensorFlow, to run the wrapper on
    concrete calls. *)

(** An operator that checks its mode strings and the shapes it is given, and
    paints the whole output with [fill_value]. *)
Definition known_fill_mode (s : string) : bool :=
  existsb (String.eqb s) ["CONSTANT"; "REFLECT"; "WRAP"; "NEAREST"]%string.

Definition known_interpolation (s : string) : bool :=
  existsb (String.eqb s) ["NEAREST"; "BILINEAR"]%string.

Definition blank_operator (a : op_args) : exn + TFTensor scalar :=
  if negb (known_fill_mode (arg_fill_mode a)) then
    inl (InvalidArgumentError "unsupported fill_mode")
  else if negb (known_interpolation (arg_interpolation a)) then
    inl (InvalidArgumentError "unsupported interpolation")
  else
    match shape (value (arg_images a)), data (value (arg_output_shape a)) with
    | [n; _; _; c], [oh; ow] =>
        let dims := [n; Z.to_nat oh; Z.to_nat ow; c] in
        inr {| static_shape := fully_defined dims;
               value := {| shape := dims;
                           data := repeat (SFloat (arg_fill_value a))
                                     (fold_right Nat.mul 1 dims) |} |}
    | _, _ =>
        inl (InvalidArgumentError "images must be 4-D and output_shape a pair")
    end.

(** Two sound behaviours of [tf.get_static_value]. *)
Definition constant_folding (t : TFTensor Z) : option (Tensor Z) :=
  Some (value t).

Definition no_static_value (t : TFTensor Z) : option (Tensor Z) := None.

(** The rendering of a vector of integers. *)
Definition string_of_Z (z : Z) : string :=
  DecimalString.NilZero.string_of_int (Z.to_int z).

Definition tensor_repr (t : TFTensor Z) : string :=
  ("tf.Tensor([" ++ String.concat " " (map string_of_Z (data (value t)))
     ++ "], shape=("
     ++ String.concat ", " (map (fun n => string_of_Z (Z.of_nat n)) (shape (value t)))
     ++ ",), dtype=int32)")%string.

(** A batch of the given shape with every element zero. *)
Definition zeros (dims : list nat) : TFTensor scalar :=
  {| static_shape := fully_defined dims;
     value := {| shape := dims;
                 data := repeat (SInt 0) (fold_right Nat.mul 1 dims) |} |}.

(** The identity transform, [1, 0, 0, 0, 1, 0, 0, 0]. *)
Definition identity_transform : TFTensor scalar :=
  {| static_shape := fully_defined [8];
     value := {| shape := [8];
                 data := map SInt [1; 0; 0; 0; 1; 0; 0; 0]%Z |} |}.

(** An int32 vector whose length is not known statically (as a graph input
    declared with shape [[None]]) and that holds three entries when run. *)
Definition unknown_length_vector : TFTensor Z :=
  {| static_shape := Dims [None];
     value := {| shape := [3%nat]; data := [10; 10; 3]%Z |} |}.

(** * Properties *)

Unset Implicit Arguments.

(** ** The monad *)

Lemma bind_ret_l {E A B} (x : A) (k : A -> M E B) :
  bind (ret x) k = k x.
Proof.
  unfold bind, ret. destruct (k x) as [log r]. reflexivity.
Qed.

Lemma bind_ret_r {E A} (m : M E A) : bind m ret = m.
Proof.
  destruct m as [log [e | x]]; simpl; [reflexivity |].
  rewrite app_nil_r. reflexivity.
Qed.

Lemma bind_assoc {E A B C} (m : M E A) (k : A -> M E B) (k' : B -> M E C) :
  bind (bind m k) k' = bind m (fun x => bind (k x) k').
Proof.
  destruct m as [log [e | x]]; simpl; [reflexivity |].
  destruct (k x) as [log1 [e1 | y]]; simpl; [reflexivity |].
  destruct (k' y) as [log2 r]. rewrite app_assoc. reflexivity.
Qed.

(** An exception stops the computation: what was logged stays logged. *)
Lemma bind_raise {E A B} (m : M E A) (k : A -> M E B) (e : exn) :
  result m = inl e -> bind m k = (trace m, inl e).
Proof.
  destruct m as [log [e' | x]]; simpl; intros H; [| discriminate].
  injection H as ->. reflexivity.
Qed.

Lemma result_bind_inr {E A B} (m : M E A) (k : A -> M E B) (a : A) :
  result m = inr a -> result (bind m k) = result (k a).
Proof.
  destruct m as [log [e | x]]; simpl; intros H; [discriminate |].
  injection H as ->. destruct (k a); reflexivity.
Qed.

(** ** transform_value_range *)

Section ValueRangeFacts.

Variables S T : Type.
Variable dtype : DType S T.

(** A call with two well-formed ranges: the eleven operations it runs and
    the tensor it returns. *)
Lemma transform_value_range_run
    (images : Tensor S) (orig_min orig_max target_min target_max : S) :
  transform_value_range dtype images
    [orig_min; orig_max] [target_min; target_max]
  = ([OpCast; OpCast; OpCast; OpCast; OpCast;
      OpSub; OpSub; OpTrueDiv; OpSub; OpMul; OpAdd],
     inr (tmap (remapped dtype orig_min orig_max target_min target_max)
            images)).
Proof.
  unfold transform_value_range, _unwrap_value_range, tf_cast_tensor,
    tf_cast, tensor_op, scalar_op, bind, emit, ret, tmap, remapped.
  cbn. rewrite !map_map. reflexivity.
Qed.

Lemma transform_value_range_result
    (images : Tensor S) (orig_min orig_max target_min target_max : S) :
  result (transform_value_range dtype images
            [orig_min; orig_max] [target_min; target_max])
  = inr (tmap (remapped dtype orig_min orig_max target_min target_max)
           images).
Proof.
  rewrite transform_value_range_run. reflexivity.
Qed.

Lemma unwrap_value_range_malformed (value_range : list S) :
  List.length value_range <> 2%nat ->
  exists msg, _unwrap_value_range dtype value_range
              = ([], inl (ValueError msg)).
Proof.
  destruct value_range as [| a [| b [| c l]]]; simpl; intros H;
    try (eexists; reflexivity).
  exfalso; apply H; reflexivity.
Qed.

Lemma unwrap_value_range_pair (value_range : list S) :
  List.length value_range = 2%nat ->
  exists lo hi, value_range = [lo; hi] /\
    _unwrap_value_range dtype value_range
    = ([OpCast; OpCast], inr (cast dtype lo, cast dtype hi)).
Proof.
  destruct value_range as [| a [| b [| c l]]]; simpl; intros H;
    try discriminate.
  exists a, b. split; reflexivity.
Qed.

End ValueRangeFacts.

(** C1. For every images tensor, every [original_range] pair, every
    [target_range] pair and every compute dtype, [transform_value_range]
    returns a tensor of the shape of [images] whose every element is
    [((cast v - orig_min) / (orig_max - orig_min)) * (target_max - target_min)
    + target_min], with [v] the input element and the bounds cast to the
    compute dtype. *)
Theorem transform_value_range_elementwise
    (S T : Type) (dtype : DType S T) (images : Tensor S)
    (orig_min orig_max target_min target_max : S) :
  result (transform_value_range dtype images
            [orig_min; orig_max] [target_min; target_max])
  = inr {| shape := shape images;
           data :=
             map (fun v =>
                    add dtype
                      (mul dtype
                         (truediv dtype
                            (sub dtype (cast dtype v) (cast dtype orig_min))
                            (sub dtype (cast dtype orig_max)
                               (cast dtype orig_min)))
                         (sub dtype (cast dtype target_max)
                            (cast dtype target_min)))
                      (cast dtype target_min))
                 (data images) |}.
Proof.
  rewrite transform_value_range_run. reflexivity.
Qed.

(** C6. With [original_range = [0, 1]] and [target_range = [0, 255]],
    [transform_value_range] maps 0 to 0, 1 to 255 and 0.5 to 127.5: in each
    floating-point dtype the three results are the floats that stand for
    exactly 0, 255 and 255/2 (the input 0.5 is the float [1 * 2^-1]). *)
Theorem transform_value_range_unit_to_byte (fmt : float_format) :
  exact_value (S754_finite false 1 (-1)) = Some (1 # 2)%Q /\
  result (transform_value_range (ieee fmt)
            {| shape := [3%nat];
               data := [SInt 0; SInt 1; SFloat (S754_finite false 1 (-1))] |}
            [SInt 0; SInt 1] [SInt 0; SInt 255])
  = inr {| shape := [3%nat];
           data := [S754_zero false; dyadic fmt 255 0; dyadic fmt 255 (-1)] |} /\
  map exact_value [S754_zero false; dyadic fmt 255 0; dyadic fmt 255 (-1)]
  = [Some 0; Some 255; Some (255 # 2)]%Q.
Proof.
  destruct fmt; vm_compute; repeat split.
Qed.

(** The same three results in the default dtype, as bit patterns. *)
Example unit_to_byte_float32 :
  result (transform_value_range float32
            {| shape := [3%nat];
               data := [SInt 0; SInt 1; SFloat (S754_finite false 1 (-1))] |}
            [SInt 0; SInt 1] [SInt 0; SInt 255])
  = inr {| shape := [3%nat];
           data := [S754_zero false;
                    S754_finite false 16711680 (-16);
                    S754_finite false 16711680 (-17)] |}.
Proof. vm_compute. reflexivity. Qed.

(** ** Malformed ranges *)

(** C9. When [original_range] or [target_range] does not hold exactly two
    items, [transform_value_range] raises the [ValueError] of the tuple
    unpacking in [_unwrap_value_range], and the only operations run before it
    are casts: no arithmetic is performed on the images. *)
Theorem malformed_range_raises_before_arithmetic
    (S T : Type) (dtype : DType S T) (images : Tensor S)
    (original_range target_range : list S) :
  List.length original_range <> 2%nat \/ List.length target_range <> 2%nat ->
  exists msg,
    result (transform_value_range dtype images original_range target_range)
    = inl (ValueError msg) /\
    (_unwrap_value_range dtype original_range = ([], inl (ValueError msg)) \/
     _unwrap_value_range dtype target_range = ([], inl (ValueError msg))) /\
    Forall (fun op => is_arithmetic op = false)
      (trace (transform_value_range dtype images original_range target_range)).
Proof.
  intros H.
  destruct (Nat.eq_dec (List.length original_range) 2) as [Ho | Ho].
  - destruct H as [H | H]; [contradiction |].
    destruct (unwrap_value_range_pair S T dtype original_range Ho)
      as (lo & hi & -> & _).
    destruct (unwrap_value_range_malformed S T dtype _ H) as [msg Hm].
    exists msg. unfold transform_value_range.
    rewrite Hm. cbn. repeat split; auto.
  - destruct (unwrap_value_range_malformed S T dtype _ Ho) as [msg Hm].
    exists msg. unfold transform_value_range.
    rewrite Hm. cbn. repeat split; auto.
Qed.

Lemma malformed_range_witness :
  exists msg,
    result (transform_value_range float32
              {| shape := [2%nat]; data := [SInt 10; SInt 20] |}
              [SInt 0; SInt 255] [SInt 0; SInt 1; SInt 2])
    = inl (ValueError msg) /\
    (_unwrap_value_range float32 [SInt 0; SInt 255]
       = ([], inl (ValueError msg)) \/
     _unwrap_value_range float32 [SInt 0; SInt 1; SInt 2]
       = ([], inl (ValueError msg))) /\
    Forall (fun op => is_arithmetic op = false)
      (trace (transform_value_range float32
                {| shape := [2%nat]; data := [SInt 10; SInt 20] |}
                [SInt 0; SInt 255] [SInt 0; SInt 1; SInt 2])).
Proof.
  apply (malformed_range_raises_before_arithmetic scalar spec_float float32).
  right. simpl. lia.
Defined.

(** ** Degenerate ranges *)

Section Degenerate.

Variables p e : Z.

Lemma SFsub_diag (x : spec_float) : zero_or_nan (SFsub p e x x) = true.
Proof.
  destruct x as [s | s | | s m ex]; try (destruct s; reflexivity);
    try reflexivity.
  unfold SFsub. rewrite Z.sub_diag. reflexivity.
Qed.

Lemma SFeqb_finite_eq s1 m1 e1 s2 m2 e2 :
  SFeqb (S754_finite s1 m1 e1) (S754_finite s2 m2 e2) = true ->
  S754_finite s1 m1 e1 = S754_finite s2 m2 e2.
Proof.
  unfold SFeqb, SFcompare.
  destruct s1, s2; try discriminate;
    destruct (Z.compare_spec e1 e2) as [-> | _ | _]; try discriminate;
    change (Pos.compare_cont Eq m1 m2) with (Pos.compare m1 m2);
    destruct (Pos.compare_spec m1 m2) as [-> | _ | _]; try discriminate;
    reflexivity.
Qed.

Lemma SFsub_eqb (x y : spec_float) :
  SFeqb x y = true -> zero_or_nan (SFsub p e x y) = true.
Proof.
  destruct x as [s | s | | s m ex], y as [s' | s' | | s' m' ey];
    try discriminate; try (destruct s, s'; (discriminate || reflexivity)).
  intros H. rewrite (SFeqb_finite_eq _ _ _ _ _ _ H). apply SFsub_diag.
Qed.

Lemma SFdiv_zero_or_nan (y w : spec_float) :
  zero_or_nan w = true -> is_finite (SFdiv p e y w) = false.
Proof.
  destruct w; try discriminate; destruct y; reflexivity.
Qed.

Lemma SFmul_non_finite (q s : spec_float) :
  is_finite q = false -> is_finite (SFmul p e q s) = false.
Proof.
  destruct q; try discriminate; destruct s; reflexivity.
Qed.

Lemma SFadd_non_finite (q t : spec_float) :
  is_finite q = false -> is_finite (SFadd p e q t) = false.
Proof.
  destruct q as [s | s | | s m ex]; try discriminate;
    destruct t as [s' | s' | | s' m' ey]; try reflexivity;
    destruct s, s'; reflexivity.
Qed.

End Degenerate.

Lemma degenerate_width (fmt : float_format) (orig_min orig_max : scalar) :
  degenerate fmt orig_min orig_max ->
  zero_or_nan (SFsub (prec fmt) (emax fmt)
                 (cast_float fmt orig_max) (cast_float fmt orig_min)) = true.
Proof.
  intros [-> | H]; [apply SFsub_diag | apply SFsub_eqb, H].
Qed.

(** C8. With a degenerate [original_range] (the bounds are equal) no error is
    raised: the call returns a tensor of the shape of [images], and the
    division by zero leaves every element of it infinite or NaN. *)
Theorem degenerate_original_range_non_finite
    (fmt : float_format) (images : Tensor scalar)
    (orig_min orig_max target_min target_max : scalar) :
  degenerate fmt orig_min orig_max ->
  exists out,
    result (transform_value_range (ieee fmt) images
              [orig_min; orig_max] [target_min; target_max]) = inr out /\
    shape out = shape images /\
    List.length (data out) = List.length (data images) /\
    Forall (fun f => is_finite f = false) (data out).
Proof.
  intros H. rewrite transform_value_range_result. unfold tmap, remapped.
  eexists. split; [reflexivity |]. cbn [shape data].
  split; [reflexivity |]. split; [apply length_map |].
  apply Forall_forall. intros f Hin.
  apply in_map_iff in Hin. destruct Hin as (v & <- & _).
  cbn [add mul truediv sub cast ieee].
  apply SFadd_non_finite, SFmul_non_finite, SFdiv_zero_or_nan.
  apply degenerate_width, H.
Qed.

Lemma degenerate_original_range_witness :
  exists out,
    result (transform_value_range (ieee Float32)
              {| shape := [2%nat]; data := [SInt 5; SInt 7] |}
              [SInt 7; SInt 7] [SInt 0; SInt 255]) = inr out /\
    shape out = [2%nat] /\
    List.length (data out) = 2%nat /\
    Forall (fun f => is_finite f = false) (data out).
Proof.
  apply (degenerate_original_range_non_finite Float32
           {| shape := [2%nat]; data := [SInt 5; SInt 7] |}
           (SInt 7) (SInt 7) (SInt 0) (SInt 255)).
  left. reflexivity.
Defined.

(** What the degenerate call of the witness returns: minus infinity where the
    input differs from the bound, NaN where it equals it. *)
Example degenerate_original_range_values :
  transform_value_range (ieee Float32)
    {| shape := [2%nat]; data := [SInt 5; SInt 7] |}
    [SInt 7; SInt 7] [SInt 0; SInt 255]
  = ([OpCast; OpCast; OpCast; OpCast; OpCast;
      OpSub; OpSub; OpTrueDiv; OpSub; OpMul; OpAdd],
     inr {| shape := [2%nat]; data := [S754_infinity true; S754_nan] |}).
Proof. vm_compute. reflexivity. Qed.

(** ** Rounding

    What the standard library's [binary_round_aux] computes, stated on
    values: the float it returns is valid and within half a unit in the last
    place of the number it was given, or it is an infinity and the number
    was out of range.  The development follows the mantissa through the two
    shifts of [shr_fexp] and the rounding to nearest even between them. *)

Section Rounding.

Local Open Scope Z_scope.

Lemma inbetween_bounds m x l :
  inbetween m x l -> (inject_Z m <= x /\ x < inject_Z m + 1)%Q.
Proof.
  destruct l as [| []]; simpl; intros H; lra.
Qed.

Lemma digits2_pos_lower (m : positive) :
  2 ^ (Zpos (digits2_pos m) - 1) <= Zpos m.
Proof.
  induction m as [p IH | p IH |]; simpl digits2_pos.
  - rewrite Pos2Z.inj_succ.
    replace (Z.succ (Zpos (digits2_pos p)) - 1)
      with (Z.succ (Zpos (digits2_pos p) - 1)) by lia.
    rewrite Z.pow_succ_r by lia. lia.
  - rewrite Pos2Z.inj_succ.
    replace (Z.succ (Zpos (digits2_pos p)) - 1)
      with (Z.succ (Zpos (digits2_pos p) - 1)) by lia.
    rewrite Z.pow_succ_r by lia. lia.
  - reflexivity.
Qed.

Lemma digits2_pos_upper (m : positive) :
  Zpos m < 2 ^ Zpos (digits2_pos m).
Proof.
  induction m as [p IH | p IH |]; simpl digits2_pos;
    rewrite ?Pos2Z.inj_succ, ?Z.pow_succ_r by lia; lia.
Qed.

Lemma Zdigits2_bounds (m : Z) :
  0 < m -> 2 ^ (Zdigits2 m - 1) <= m < 2 ^ Zdigits2 m.
Proof.
  destruct m as [| p | p]; try lia. intros _. simpl Zdigits2.
  split; [apply digits2_pos_lower | apply digits2_pos_upper].
Qed.

Lemma Zdigits2_pos (m : Z) : 0 < m -> 0 < Zdigits2 m.
Proof. destruct m; simpl; lia. Qed.

Lemma Zdigits2_unique (m k : Z) :
  0 < m -> 2 ^ (k - 1) <= m < 2 ^ k -> Zdigits2 m = k.
Proof.
  intros Hm [Hlo Hhi].
  destruct (Zdigits2_bounds m Hm) as [Dlo Dhi].
  pose proof (Zdigits2_pos m Hm) as Dpos.
  assert (Hk : 0 < k).
  { destruct (Z.lt_ge_cases 0 k) as [|Hle]; [assumption|].
    destruct (Z.eq_dec k 0) as [-> | Hn]; [simpl in Hhi; lia |].
    rewrite Z.pow_neg_r in Hhi by lia. lia. }
  destruct (Z.lt_trichotomy (Zdigits2 m) k) as [H | [H | H]]; [| exact H |].
  - assert (2 ^ Zdigits2 m <= 2 ^ (k - 1)) by (apply Z.pow_le_mono_r; lia). lia.
  - assert (2 ^ k <= 2 ^ (Zdigits2 m - 1)) by (apply Z.pow_le_mono_r; lia). lia.
Qed.

(** ** Shifting a mantissa right *)

Lemma shr_record_loc (m : Z) (l : location) :
  loc_of_shr_record (shr_record_of_loc m l) = l /\
  shr_m (shr_record_of_loc m l) = m.
Proof. destruct l as [| []]; split; reflexivity. Qed.

(** One step: the mantissa is halved and the location follows. *)
Lemma shr_1_correct (mrs : shr_record) (x : Q) :
  0 <= shr_m mrs ->
  inbetween (shr_m mrs) x (loc_of_shr_record mrs) ->
  0 <= shr_m (shr_1 mrs) /\
  inbetween (shr_m (shr_1 mrs)) (x / 2)%Q (loc_of_shr_record (shr_1 mrs)).
Proof.
  destruct mrs as [m r s]. cbn [shr_m]. intros Hm H.
  unfold Qdiv. change (/ 2)%Q with (1 # 2)%Q.
  destruct m as [| p | p]; [| | lia].
  - destruct r, s; cbn [shr_1 shr_m loc_of_shr_record orb inbetween] in *;
      change (inject_Z 0) with 0%Q in *; split; try lia; lra.
  - destruct p as [p | p |].
    + assert (Hp : (inject_Z (Zpos p~1) == 2 * inject_Z (Zpos p) + 1)%Q).
      { rewrite Pos2Z.inj_xI, inject_Z_plus, inject_Z_mult. reflexivity. }
      destruct r, s; cbn [shr_1 shr_m loc_of_shr_record orb inbetween] in *;
        split; try lia; lra.
    + assert (Hp : (inject_Z (Zpos p~0) == 2 * inject_Z (Zpos p))%Q).
      { rewrite Pos2Z.inj_xO, inject_Z_mult. reflexivity. }
      destruct r, s; cbn [shr_1 shr_m loc_of_shr_record orb inbetween] in *;
        split; try lia; lra.
    + destruct r, s; cbn [shr_1 shr_m loc_of_shr_record orb inbetween] in *;
        change (inject_Z 0) with 0%Q in *; change (inject_Z 1) with 1%Q in *;
        split; try lia; lra.
Qed.

Lemma iter_pos_invariant {A : Type} (f : A -> A) (P : Z -> A -> Prop) :
  (forall k a, 0 <= k -> P k a -> P (k + 1) (f a)) ->
  forall n k a, 0 <= k -> P k a -> P (k + Zpos n) (iter_pos f n a).
Proof.
  intros Hstep. induction n as [n IH | n IH |]; intros k a Hk Ha; simpl.
  - replace (k + Zpos n~1) with (k + 1 + Zpos n + Zpos n) by lia.
    apply IH; [lia |]. apply IH; [lia |]. apply Hstep; assumption.
  - replace (k + Zpos n~0) with (k + Zpos n + Zpos n) by lia.
    apply IH; [lia |]. apply IH; assumption.
  - apply Hstep; assumption.
Qed.

Lemma inject_Z_pow2_succ (k : Z) :
  0 <= k -> (inject_Z (2 ^ (k + 1)) == inject_Z (2 ^ k) * 2)%Q.
Proof.
  intros Hk. rewrite Z.pow_add_r by lia. rewrite inject_Z_mult. reflexivity.
Qed.

Lemma inject_Z_pow2_pos (k : Z) : (0 < inject_Z (2 ^ k))%Q \/ k < 0.
Proof.
  destruct (Z.lt_ge_cases k 0) as [H | H]; [right; exact H | left].
  change 0%Q with (inject_Z 0). rewrite <- Zlt_Qlt. apply Z.pow_pos_nonneg; lia.
Qed.

(** [n] steps divide by [2^n]. *)
Lemma shr_iter_correct (n : positive) (mrs : shr_record) (x : Q) :
  0 <= shr_m mrs ->
  inbetween (shr_m mrs) x (loc_of_shr_record mrs) ->
  0 <= shr_m (iter_pos shr_1 n mrs) /\
  inbetween (shr_m (iter_pos shr_1 n mrs)) (x / inject_Z (2 ^ Zpos n))%Q
    (loc_of_shr_record (iter_pos shr_1 n mrs)).
Proof.
  intros Hm H.
  pose (P := fun (k : Z) (a : shr_record) =>
               0 <= shr_m a /\
               inbetween (shr_m a) (x / inject_Z (2 ^ k))%Q
                 (loc_of_shr_record a)).
  assert (Hstep : forall k a, 0 <= k -> P k a -> P (k + 1) (shr_1 a)).
  { intros k a Hk [Ha1 Ha2]. unfold P.
    destruct (shr_1_correct a _ Ha1 Ha2) as [H1 H2]. split; [exact H1 |].
    assert (Heq : (x / inject_Z (2 ^ (k + 1)) == x / inject_Z (2 ^ k) / 2)%Q).
    { rewrite inject_Z_pow2_succ by lia.
      destruct (inject_Z_pow2_pos k) as [Hp | Hn]; [| lia].
      field. lra. }
    destruct (loc_of_shr_record (shr_1 a)) as [| []]; cbn [inbetween] in *;
      rewrite Heq; exact H2. }
  assert (H0 : P 0 mrs).
  { unfold P. split; [exact Hm |].
    assert (Heq : (x / inject_Z (2 ^ 0) == x)%Q) by (simpl; field).
    destruct (loc_of_shr_record mrs) as [| []]; cbn [inbetween] in *;
      rewrite Heq; exact H. }
  pose proof (iter_pos_invariant shr_1 P Hstep n 0 mrs (Z.le_refl 0) H0) as Hn.
  unfold P in Hn. simpl (0 + Zpos n) in Hn. exact Hn.
Qed.

Lemma shift_bounds (mx m' c : Z) (x y : Q) :
  0 < c ->
  (inject_Z mx <= x /\ x < inject_Z mx + 1)%Q ->
  (inject_Z m' <= y /\ y < inject_Z m' + 1)%Q ->
  (y * inject_Z c == x)%Q ->
  m' * c <= mx < (m' + 1) * c.
Proof.
  intros Hc [Hx1 Hx2] [Hy1 Hy2] Hyx.
  assert (Hcq : (0 < inject_Z c)%Q).
  { change 0%Q with (inject_Z 0). rewrite <- Zlt_Qlt. exact Hc. }
  assert (H1 : (inject_Z (m' * c) < inject_Z (mx + 1))%Q).
  { rewrite inject_Z_mult, inject_Z_plus. change (inject_Z 1) with 1%Q. nra. }
  assert (H2 : (inject_Z mx < inject_Z ((m' + 1) * c))%Q).
  { rewrite inject_Z_mult, inject_Z_plus. change (inject_Z 1) with 1%Q. nra. }
  rewrite <- Zlt_Qlt in H1, H2. lia.
Qed.

Lemma round_nearest_even_correct (m : Z) (x : Q) (l : location) :
  inbetween m x l ->
  (round_nearest_even m l = m \/ round_nearest_even m l = m + 1) /\
  (- (1 # 2) <= inject_Z (round_nearest_even m l) - x <= 1 # 2)%Q /\
  (l = loc_Exact -> round_nearest_even m l = m).
Proof.
  intros H.
  assert (Hs : (inject_Z (m + 1) == inject_Z m + 1)%Q).
  { rewrite inject_Z_plus. reflexivity. }
  destruct l as [| []]; cbn [round_nearest_even inbetween] in *.
  - split; [left; reflexivity |]. split; [lra | reflexivity].
  - destruct (Z.even m).
    + split; [left; reflexivity |]. split; [lra | discriminate].
    + split; [right; reflexivity |]. split; [lra | discriminate].
  - split; [left; reflexivity |]. split; [lra | discriminate].
  - split; [right; reflexivity |]. split; [lra | discriminate].
Qed.

Section Format.

Variables prec emax : Z.
Hypothesis prec_gt_0 : 0 < prec.
Hypothesis prec_lt_emax : prec < emax.


Lemma fexp_spec (z : Z) : fexp prec emax z = Z.max (z - prec) (emin prec emax).
Proof. reflexivity. Qed.

(** [shr_fexp]: no shift, or a shift by [n] places. *)
Lemma shr_fexp_correct (m e : Z) (l : location) (x : Q) :
  0 <= m -> inbetween m x l ->
  let n := fexp prec emax (Zdigits2 m + e) - e in
  let mrs' := fst (shr_fexp prec emax m e l) in
  let e' := snd (shr_fexp prec emax m e l) in
  0 <= shr_m mrs' /\
  ((n <= 0 /\ e' = e /\ shr_m mrs' = m /\ loc_of_shr_record mrs' = l) \/
   (0 < n /\ e' = e + n /\
    exists y, (y * inject_Z (2 ^ n) == x)%Q /\
              inbetween (shr_m mrs') y (loc_of_shr_record mrs'))).
Proof.
  intros Hm H n mrs' e'. subst mrs' e'. unfold shr_fexp, shr. fold n.
  destruct (shr_record_loc m l) as [Hl Hmm].
  destruct n as [| p | p] eqn:Hn; cbn [fst snd].
  - rewrite Hmm. split; [exact Hm |]. left. repeat split; auto. lia.
  - assert (Hin : inbetween (shr_m (shr_record_of_loc m l)) x
                    (loc_of_shr_record (shr_record_of_loc m l))).
    { rewrite Hl, Hmm. exact H. }
    assert (Hm' : 0 <= shr_m (shr_record_of_loc m l)) by (rewrite Hmm; exact Hm).
    destruct (shr_iter_correct p _ x Hm' Hin) as [H1 H2].
    split; [exact H1 |]. right. split; [lia |]. split; [reflexivity |].
    exists (x / inject_Z (2 ^ Zpos p))%Q. split; [| exact H2].
    destruct (inject_Z_pow2_pos (Zpos p)) as [Hp | Hp]; [| lia].
    field. lra.
  - rewrite Hmm. split; [exact Hm |]. left. repeat split; auto. lia.
Qed.


Lemma pow2_split (a b : Z) : 0 <= a -> 0 <= b -> 2 ^ (a + b) = 2 ^ a * 2 ^ b.
Proof. intros. apply Z.pow_add_r; assumption. Qed.

(** Digits of a mantissa shifted right by [n] places. *)
Lemma Zdigits2_shift (mx m' n : Z) :
  0 < n -> 0 < m' -> m' * 2 ^ n <= mx < (m' + 1) * 2 ^ n ->
  Zdigits2 m' = Zdigits2 mx - n.
Proof.
  intros Hn Hm' [Hlo Hhi].
  assert (Hp : 0 < 2 ^ n) by (apply Z.pow_pos_nonneg; lia).
  assert (Hmx : 0 < mx) by nia.
  destruct (Zdigits2_bounds mx Hmx) as [Dlo Dhi].
  pose proof (Zdigits2_pos mx Hmx) as Dpos.
  assert (Hnd : n < Zdigits2 mx).
  { destruct (Z.lt_ge_cases n (Zdigits2 mx)) as [|Hge]; [assumption |].
    assert (2 ^ Zdigits2 mx <= 2 ^ n) by (apply Z.pow_le_mono_r; lia). nia. }
  apply Zdigits2_unique; [exact Hm' |].
  assert (E1 : 2 ^ (Zdigits2 mx - 1) = 2 ^ (Zdigits2 mx - n - 1) * 2 ^ n).
  { rewrite <- pow2_split by lia. f_equal. lia. }
  assert (E2 : 2 ^ Zdigits2 mx = 2 ^ (Zdigits2 mx - n) * 2 ^ n).
  { rewrite <- pow2_split by lia. f_equal. lia. }
  rewrite E1 in Dlo. rewrite E2 in Dhi.
  split; nia.
Qed.

(** The first [shr_fexp] of [binary_round_aux], on an input that is not
    already too coarse. *)
Lemma first_shift (mx ex : Z) (lx : location) (x : Q) :
  0 <= mx -> inbetween mx x lx ->
  ex <= fexp prec emax (Zdigits2 mx + ex) ->
  let mrs' := fst (shr_fexp prec emax mx ex lx) in
  let e' := snd (shr_fexp prec emax mx ex lx) in
  let n := e' - ex in
  0 <= shr_m mrs' /\ 0 <= n /\
  (exists y, (y * inject_Z (2 ^ n) == x)%Q /\
             inbetween (shr_m mrs') y (loc_of_shr_record mrs')) /\
  ((shr_m mrs' = 0 /\ e' = (emin prec emax)) \/
   (0 < shr_m mrs' /\ fexp prec emax (Zdigits2 (shr_m mrs') + e') = e')).
Proof.
  intros Hm H HP mrs' e' n.
  destruct (shr_fexp_correct mx ex lx x Hm H) as [Hm' Hcase].
  fold mrs' e' in Hm', Hcase. subst n.
  split; [exact Hm' |].
  destruct Hcase as [(Hn & He & Hmm & Hl) | (Hn & He & y & Hy & Hin)].
  - rewrite He, Hmm, Hl. replace (ex - ex) with 0 by lia.
    split; [lia |]. split.
    + exists x. split; [simpl; ring | exact H].
    + assert (Hfe : fexp prec emax (Zdigits2 mx + ex) = ex) by lia.
      destruct (Z.eq_dec mx 0) as [-> | Hne].
      * left. split; [reflexivity |]. simpl Zdigits2 in Hfe.
        rewrite fexp_spec in Hfe. lia.
      * right. split; [lia | exact Hfe].
  - rewrite He. replace (ex + (fexp prec emax (Zdigits2 mx + ex) - ex) - ex)
      with (fexp prec emax (Zdigits2 mx + ex) - ex) by lia.
    split; [lia |]. split; [exists y; split; assumption |].
    assert (Hp : 0 < 2 ^ (fexp prec emax (Zdigits2 mx + ex) - ex))
      by (apply Z.pow_pos_nonneg; lia).
    pose proof (shift_bounds mx (shr_m mrs') _ x y Hp
                  (inbetween_bounds _ _ _ H) (inbetween_bounds _ _ _ Hin) Hy)
      as Hb.
    destruct (Z.eq_dec (shr_m mrs') 0) as [H0 | Hne].
    + left. split; [exact H0 |]. rewrite H0 in Hb.
      assert (Hd : Zdigits2 mx <= fexp prec emax (Zdigits2 mx + ex) - ex).
      { destruct (Z.eq_dec mx 0) as [-> | Hmx]; [cbn [Zdigits2] in *; lia |].
        assert (Hmx' : 0 < mx) by lia.
        destruct (Zdigits2_bounds mx Hmx') as [Dlo Dhi].
        destruct (Z.lt_ge_cases (fexp prec emax (Zdigits2 mx + ex) - ex) (Zdigits2 mx))
          as [Hlt | Hge]; [| lia].
        assert (2 ^ (fexp prec emax (Zdigits2 mx + ex) - ex) <= 2 ^ (Zdigits2 mx - 1))
          by (apply Z.pow_le_mono_r; lia).
        lia. }
      rewrite fexp_spec in *. lia.
    + right. split; [lia |].
      rewrite (Zdigits2_shift mx (shr_m mrs') _ Hn ltac:(lia) Hb).
      replace (Zdigits2 mx - (fexp prec emax (Zdigits2 mx + ex) - ex)
               + (ex + (fexp prec emax (Zdigits2 mx + ex) - ex)))
        with (Zdigits2 mx + ex) by lia.
      lia.
Qed.


Lemma Zdigits2_succ (m : Z) :
  0 < m ->
  (m + 1 < 2 ^ Zdigits2 m /\ Zdigits2 (m + 1) = Zdigits2 m) \/
  (m + 1 = 2 ^ Zdigits2 m /\ Zdigits2 (m + 1) = Zdigits2 m + 1).
Proof.
  intros Hm. destruct (Zdigits2_bounds m Hm) as [Dlo Dhi].
  pose proof (Zdigits2_pos m Hm) as Dpos.
  destruct (Z.eq_dec (m + 1) (2 ^ Zdigits2 m)) as [He | Hne].
  - right. split; [exact He |]. apply Zdigits2_unique; [lia |].
    replace (Zdigits2 m + 1 - 1) with (Zdigits2 m) by lia.
    rewrite Z.pow_add_r by lia. simpl (2 ^ 1). lia.
  - left. split; [lia |]. apply Zdigits2_unique; lia.
Qed.

(** Rounding to nearest and the second [shr_fexp], which absorbs a carry. *)
Lemma second_shift (m' e' : Z) (l' : location) (y : Q) :
  0 <= m' -> inbetween m' y l' ->
  ((m' = 0 /\ e' = (emin prec emax)) \/
   (0 < m' /\ fexp prec emax (Zdigits2 m' + e') = e')) ->
  let m1 := round_nearest_even m' l' in
  let mrs'' := fst (shr_fexp prec emax m1 e' loc_Exact) in
  let e'' := snd (shr_fexp prec emax m1 e' loc_Exact) in
  0 <= shr_m mrs'' /\
  exists k, (k = 0 \/ k = 1) /\ e'' = e' + k /\
    (- (1 # 2) <= inject_Z (shr_m mrs'') * inject_Z (2 ^ k) - y <= 1 # 2)%Q /\
    ((shr_m mrs'' = 0 /\ e'' = (emin prec emax)) \/
     (0 < shr_m mrs'' /\ fexp prec emax (Zdigits2 (shr_m mrs'') + e'') = e'')).
Proof.
  intros Hm' Hin Hcanon m1 mrs'' e''.
  destruct (round_nearest_even_correct m' y l' Hin) as (Hm1 & Herr & _).
  fold m1 in Hm1, Herr.
  assert (Hm1pos : 0 <= m1) by lia.
  assert (Hex : inbetween m1 (inject_Z m1) loc_Exact) by (simpl; reflexivity).
  destruct (shr_fexp_correct m1 e' loc_Exact (inject_Z m1) Hm1pos Hex)
    as [Hm'' Hcase].
  fold mrs'' e'' in Hm'', Hcase.
  split; [exact Hm'' |].
  assert (Hk0 : fexp prec emax (Zdigits2 m1 + e') = e' ->
                (m1 = 0 -> e' = (emin prec emax)) ->
                shr_m mrs'' = m1 -> e'' = e' ->
                exists k, (k = 0 \/ k = 1) /\ e'' = e' + k /\
                  (- (1 # 2) <= inject_Z (shr_m mrs'') * inject_Z (2 ^ k) - y
                   <= 1 # 2)%Q /\
                  ((shr_m mrs'' = 0 /\ e'' = (emin prec emax)) \/
                   (0 < shr_m mrs'' /\
                    fexp prec emax (Zdigits2 (shr_m mrs'') + e'') = e''))).
  { intros Hf Hz Hmm He. exists 0. split; [left; reflexivity |].
    split; [lia |]. rewrite Hmm, He. split.
    - simpl (2 ^ 0). change (inject_Z 1) with 1%Q. lra.
    - destruct (Z.eq_dec m1 0) as [H0 | Hn0]; [left | right].
      + split; [exact H0 | apply Hz, H0].
      + split; [lia | exact Hf]. }
  destruct Hcanon as [[Hz He'] | [Hpos Hf]].
  - (* the mantissa was shifted out *)
    assert (Hd : Zdigits2 m1 = 0 \/ Zdigits2 m1 = 1).
    { destruct Hm1 as [-> | ->]; rewrite Hz; [left | right]; reflexivity. }
    assert (Hf1 : fexp prec emax (Zdigits2 m1 + e') = e').
    { rewrite fexp_spec. lia. }
    destruct Hcase as [(Hn & He & Hmm & _) | (Hn & _)]; [| lia].
    apply Hk0; auto.
  - destruct Hm1 as [Hsame | Hup].
    + (* rounded down *)
      assert (Hf1 : fexp prec emax (Zdigits2 m1 + e') = e') by (rewrite Hsame; exact Hf).
      destruct Hcase as [(Hn & He & Hmm & _) | (Hn & _)]; [| lia].
      apply Hk0; auto. lia.
    + destruct (Zdigits2_succ m' Hpos) as [[Hlt Hd] | [Hpow Hd]].
      * (* rounded up, same number of digits *)
        assert (Hf1 : fexp prec emax (Zdigits2 m1 + e') = e')
          by (rewrite Hup, Hd; exact Hf).
        destruct Hcase as [(Hn & He & Hmm & _) | (Hn & _)]; [| lia].
        apply Hk0; auto. lia.
      * (* rounded up to a power of two *)
        pose proof (Zdigits2_pos m' Hpos) as Dpos.
        assert (Hd1 : Zdigits2 m1 = Zdigits2 m' + 1) by (rewrite Hup; exact Hd).
        destruct Hcase as [(Hn & He & Hmm & _) | (Hn & He & y2 & Hy2 & Hin2)].
        -- apply Hk0; auto; [| lia]. rewrite fexp_spec in *. lia.
        -- assert (Hn1 : fexp prec emax (Zdigits2 m1 + e') - e' = 1).
           { rewrite fexp_spec in *. lia. }
           rewrite Hn1 in *.
           assert (Hb : shr_m mrs'' * 2 ^ 1 <= m1 < (shr_m mrs'' + 1) * 2 ^ 1).
           { apply (shift_bounds m1 (shr_m mrs'') (2 ^ 1) (inject_Z m1) y2);
               [reflexivity | | apply (inbetween_bounds _ _ _ Hin2) | exact Hy2].
             split; lra. }
           simpl (2 ^ 1) in Hb.
           assert (Hm1v : m1 = 2 * 2 ^ (Zdigits2 m' - 1)).
           { rewrite Hup, Hpow.
             replace (Zdigits2 m') with (1 + (Zdigits2 m' - 1)) at 1 by lia.
             rewrite Z.pow_add_r by lia. reflexivity. }
           assert (Hv : shr_m mrs'' = 2 ^ (Zdigits2 m' - 1)) by lia.
           assert (Hpp : 0 < 2 ^ (Zdigits2 m' - 1))
             by (apply Z.pow_pos_nonneg; lia).
           exists 1. split; [right; reflexivity |]. split; [exact He |].
           split.
           ++ assert (Hq : (inject_Z (shr_m mrs'') * inject_Z (2 ^ 1)
                            == inject_Z m1)%Q).
              { rewrite <- inject_Z_mult. rewrite Hv, Hm1v.
                simpl (2 ^ 1). f_equiv. lia. }
              rewrite Hq. exact Herr.
           ++ right. split; [lia |].
              assert (Hdd : Zdigits2 (shr_m mrs'') = Zdigits2 m').
              { apply Zdigits2_unique; [lia |]. rewrite Hv. split; [lia |].
                apply Z.pow_lt_mono_r; lia. }
              rewrite Hdd, He. rewrite fexp_spec in *. lia.
Qed.


(** [binary_round_aux] on an input that is not already too coarse: the
    result is a valid float, nearest to the input, or an infinity. *)
Lemma binary_round_aux_correct (sx : bool) (mx ex : Z) (lx : location) (x : Q) :
  0 <= mx -> inbetween mx x lx ->
  ex <= fexp prec emax (Zdigits2 mx + ex) ->
  match binary_round_aux prec emax sx mx ex lx with
  | S754_zero s => s = sx /\ rounded ex x 0 (emin prec emax)
  | S754_finite s m e =>
      s = sx /\ bounded prec emax m e = true /\ rounded ex x (Zpos m) e
  | S754_infinity s =>
      s = sx /\
      exists m e, 0 < m /\ fexp prec emax (Zdigits2 m + e) = e /\ emax - prec < e /\
                  rounded ex x m e
  | S754_nan => False
  end.
Proof.
  intros Hm Hin HP.
  pose proof (first_shift mx ex lx x Hm Hin HP) as H1.
  unfold binary_round_aux.
  destruct (shr_fexp prec emax mx ex lx) as [mrs' e'] eqn:E1.
  cbv zeta in H1. rewrite ?E1 in H1. cbn [fst snd] in H1.
  destruct H1 as (Hm' & Hn & (y & Hy & Hiny) & Hcanon).
  pose proof (second_shift (shr_m mrs') e' (loc_of_shr_record mrs') y
                Hm' Hiny Hcanon) as H2.
  destruct (shr_fexp prec emax
              (round_nearest_even (shr_m mrs') (loc_of_shr_record mrs'))
              e' loc_Exact) as [mrs'' e''] eqn:E2.
  cbv zeta in H2. rewrite ?E2 in H2. cbn [fst snd] in H2.
  destruct H2 as (Hm'' & k & Hk & He'' & Herr & Hcanon'').
  assert (Hr : rounded ex x (shr_m mrs'') e'').
  { exists (e' - ex + k), (y / inject_Z (2 ^ k))%Q.
    assert (Hkq : (inject_Z (2 ^ k) == 1 \/ inject_Z (2 ^ k) == 2)%Q).
    { destruct Hk as [-> | ->]; [left | right]; reflexivity. }
    split; [lia |]. split; [lia |]. split.
    - rewrite Z.pow_add_r by lia. rewrite inject_Z_mult.
      rewrite <- Hy. destruct Hkq as [-> | ->]; field.
    - destruct Hkq as [Hq | Hq]; rewrite Hq in *.
      + unfold Qdiv. change (/ 1)%Q with 1%Q. lra.
      + unfold Qdiv. change (/ 2)%Q with (1 # 2)%Q. lra. }
  destruct (shr_m mrs'') as [| m | m] eqn:Em.
  - split; [reflexivity |].
    destruct Hcanon'' as [[_ He] | [Hc _]]; [| lia].
    rewrite <- He. exact Hr.
  - destruct Hcanon'' as [[Hc _] | [_ Hf]]; [lia |].
    destruct (e'' <=? emax - prec) eqn:Hle.
    + split; [reflexivity |]. split; [| exact Hr].
      unfold bounded, canonical_mantissa.
      cbn [Zdigits2] in Hf. rewrite Hf, Z.eqb_refl, Hle. reflexivity.
    + split; [reflexivity |]. exists (Z.pos m), e''.
      apply Z.leb_gt in Hle.
      split; [lia |]. split; [exact Hf |]. split; [lia | exact Hr].
  - lia.
Qed.


Lemma pow2_pos (e : Z) : (0 < 2 ^ e)%Q.
Proof. apply Qpower_0_lt. reflexivity. Qed.

Lemma pow2_add (a b : Z) : (2 ^ (a + b) == 2 ^ a * 2 ^ b)%Q.
Proof. apply Qpower_plus. discriminate. Qed.

Lemma pow2_inject (n : Z) : 0 <= n -> (inject_Z (2 ^ n) == 2 ^ n)%Q.
Proof. intros Hn. rewrite Zpower_Qpower by exact Hn. reflexivity. Qed.

Lemma pow2_le (a b : Z) : a <= b -> (2 ^ a <= 2 ^ b)%Q.
Proof. intros H. apply Qpower_le_compat_l; [exact H | discriminate]. Qed.

Lemma pow2_half (a : Z) : (2 ^ (a - 1) == (1 # 2) * 2 ^ a)%Q.
Proof.
  replace (a - 1) with (a + -1) by lia. rewrite pow2_add.
  change (2 ^ (-1))%Q with (/ 2)%Q. change (/ 2)%Q with (1 # 2)%Q.
  ring.
Qed.

Lemma sgn_abs (s : bool) (a : Q) : (Qabs (sgn s * a) == Qabs a)%Q.
Proof.
  rewrite Qabs_Qmult. destruct s; cbn [sgn];
    [change (Qabs (-1)) with 1%Q | change (Qabs 1) with 1%Q]; ring.
Qed.

Lemma rounded_error (ex : Z) (x : Q) (m e : Z) :
  rounded ex x m e ->
  (Qabs (inject_Z m * 2 ^ e - x * 2 ^ ex) <= (1 # 2) * 2 ^ e)%Q.
Proof.
  intros (n & y & Hn & He & Hy & Herr).
  assert (Hx : (x * 2 ^ ex == y * 2 ^ e)%Q).
  { rewrite He, pow2_add, <- Hy, (pow2_inject n Hn). ring. }
  rewrite Hx.
  assert (Hf : (inject_Z m * 2 ^ e - y * 2 ^ e == (inject_Z m - y) * 2 ^ e)%Q)
    by ring.
  rewrite Hf, Qabs_Qmult.
  rewrite (Qabs_pos (2 ^ e)) by (apply Qlt_le_weak, pow2_pos).
  apply Qmult_le_compat_r; [| apply Qlt_le_weak, pow2_pos].
  apply Qabs_Qle_condition. exact Herr.
Qed.

Lemma canonical_half_ulp (m e : Z) :
  0 < m -> fexp prec emax (Zdigits2 m + e) = e ->
  ((1 # 2) * 2 ^ e
   <= unit_roundoff prec * (inject_Z m * 2 ^ e) + half_step prec emax)%Q.
Proof.
  intros Hm Hf. unfold unit_roundoff, half_step.
  pose proof (pow2_pos e) as He.
  pose proof (pow2_pos ((emin prec emax) - 1)) as Heta.
  pose proof (pow2_pos (- prec)) as Hu.
  rewrite fexp_spec in Hf.
  destruct (Z.eq_dec e (emin prec emax)) as [-> | Hne].
  - rewrite pow2_half in *.
    assert (0 <= 2 ^ (- prec) * (inject_Z m * 2 ^ (emin prec emax)))%Q.
    { apply Qmult_le_0_compat; [lra |].
      apply Qmult_le_0_compat; [| lra].
      change 0%Q with (inject_Z 0). rewrite <- Zle_Qle. lia. }
    lra.
  - assert (Hd : Zdigits2 m = prec) by lia.
    destruct (Zdigits2_bounds m Hm) as [Dlo _]. rewrite Hd in Dlo.
    assert (Hq : (2 ^ (prec - 1) <= inject_Z m)%Q).
    { rewrite <- pow2_inject by lia. rewrite <- Zle_Qle. exact Dlo. }
    rewrite pow2_half in Hq.
    assert (Hone : (2 ^ (- prec) * 2 ^ prec == 1)%Q).
    { rewrite <- pow2_add. replace (- prec + prec) with 0 by lia. reflexivity. }
    assert (Hh : ((1 # 2) <= 2 ^ (- prec) * inject_Z m)%Q).
    { assert (2 ^ (- prec) * ((1 # 2) * 2 ^ prec)
              <= 2 ^ (- prec) * inject_Z m)%Q
        by (apply Qmult_le_l; [exact Hu | exact Hq]).
      lra. }
    assert (((1 # 2) * 2 ^ e <= (2 ^ (- prec) * inject_Z m) * 2 ^ e)%Q)
      by (apply Qmult_le_compat_r; lra).
    lra.
Qed.

Lemma overflow_magnitude (ex : Z) (x : Q) (m e : Z) :
  0 < m -> fexp prec emax (Zdigits2 m + e) = e -> emax - prec < e ->
  rounded ex x m e ->
  (2 ^ (emax - 1) <= x * 2 ^ ex)%Q.
Proof.
  intros Hm Hf He Hr.
  pose proof (rounded_error ex x m e Hr) as Herr.
  apply Qabs_Qle_condition in Herr.
  rewrite fexp_spec in Hf. unfold SpecFloat.emin in Hf.
  assert (Hd : Zdigits2 m = prec) by lia.
  destruct (Zdigits2_bounds m Hm) as [Dlo _]. rewrite Hd in Dlo.
  assert (Hq : (2 ^ (prec - 1) <= inject_Z m)%Q).
  { rewrite <- pow2_inject by lia. rewrite <- Zle_Qle. exact Dlo. }
  assert (H1 : (1 <= 2 ^ (prec - 1))%Q).
  { change 1%Q with (2 ^ 0)%Q. apply pow2_le. lia. }
  assert (H2 : (2 ^ (emax - prec + 1) <= 2 ^ e)%Q) by (apply pow2_le; lia).
  assert (H3 : (2 ^ (emax - 1) == (1 # 2) * 2 ^ (prec - 1) * 2 ^ (emax - prec + 1))%Q).
  { rewrite pow2_half. rewrite <- Qmult_assoc, <- pow2_add.
    replace (prec - 1 + (emax - prec + 1)) with emax by lia. reflexivity. }
  pose proof (pow2_pos e) as Pe.
  pose proof (pow2_pos (emax - prec + 1)) as Pm.
  rewrite H3.
  assert (H4 : ((1 # 2) * 2 ^ (prec - 1) * 2 ^ (emax - prec + 1)
                <= (1 # 2) * 2 ^ (prec - 1) * 2 ^ e)%Q).
  { apply Qmult_le_l; [lra | exact H2]. }
  assert (H5 : ((1 # 2) * 2 ^ (prec - 1) * 2 ^ e
                <= (inject_Z m - (1 # 2)) * 2 ^ e)%Q).
  { apply Qmult_le_compat_r; lra. }
  lra.
Qed.

(** What [binary_round_aux] returns, as a statement on values. *)
Lemma binary_round_aux_value (sx : bool) (mx ex : Z) (lx : location) (x : Q) :
  0 <= mx -> inbetween mx x lx ->
  ex <= fexp prec emax (Zdigits2 mx + ex) ->
  rounds_to prec emax (sgn sx * (x * 2 ^ ex))
            (binary_round_aux prec emax sx mx ex lx).
Proof.
  intros Hm Hin HP.
  pose proof (binary_round_aux_correct sx mx ex lx x Hm Hin HP) as H.
  assert (Hx : (0 <= x)%Q).
  { destruct (inbetween_bounds mx x lx Hin) as [Hlo _].
    assert (0 <= inject_Z mx)%Q
      by (change 0%Q with (inject_Z 0); rewrite <- Zle_Qle; exact Hm).
    lra. }
  assert (Hxe : (0 <= x * 2 ^ ex)%Q).
  { apply Qmult_le_0_compat; [exact Hx | apply Qlt_le_weak, pow2_pos]. }
  destruct (binary_round_aux prec emax sx mx ex lx) as [s | s | | s m e];
    unfold rounds_to, valid_binary.
  - destruct H as [_ Hr]. split; [reflexivity |].
    rewrite sgn_abs. apply rounded_error in Hr.
    unfold half_step. rewrite pow2_half.
    assert (Hz : (inject_Z 0 * 2 ^ (emin prec emax) - x * 2 ^ ex == - (x * 2 ^ ex))%Q)
      by (change (inject_Z 0) with 0%Q; ring).
    rewrite Hz, Qabs_opp in Hr. exact Hr.
  - destruct H as [_ (m & e & Hmp & Hf & He & Hr)]. split; [reflexivity |].
    rewrite sgn_abs, Qabs_pos by exact Hxe.
    exact (overflow_magnitude ex x m e Hmp Hf He Hr).
  - destruct H.
  - destruct H as (-> & Hb & Hr). split; [exact Hb |].
    assert (Hf : fexp prec emax (Zdigits2 (Z.pos m) + e) = e).
    { unfold bounded, canonical_mantissa in Hb.
      apply andb_true_iff in Hb. destruct Hb as [Hc _].
      apply Z.eqb_eq in Hc. exact Hc. }
    pose proof (canonical_half_ulp (Z.pos m) e ltac:(lia) Hf) as Hu.
    apply rounded_error in Hr.
    assert (Hs : (sgn sx * inject_Z (Z.pos m) * 2 ^ e - sgn sx * (x * 2 ^ ex)
                  == sgn sx * (inject_Z (Z.pos m) * 2 ^ e - x * 2 ^ ex))%Q)
      by ring.
    rewrite Hs, sgn_abs. lra.
Qed.


Lemma sgn_xorb (a b : bool) : (sgn (xorb a b) == sgn a * sgn b)%Q.
Proof. destruct a, b; reflexivity. Qed.

Lemma sgn_nonzero (s : bool) : ~ (sgn s == 0)%Q.
Proof. destruct s; discriminate. Qed.

Lemma Zdigits2_lower (m k : Z) : 0 < m -> 2 ^ k <= m -> k < Zdigits2 m.
Proof.
  intros Hm Hk. destruct (Zdigits2_bounds m Hm) as [_ Dhi].
  pose proof (Zdigits2_pos m Hm) as Dpos.
  destruct (Z.lt_ge_cases k (Zdigits2 m)) as [Hlt | Hge]; [exact Hlt |].
  assert (2 ^ Zdigits2 m <= 2 ^ k) by (apply Z.pow_le_mono_r; lia).
  lia.
Qed.

Lemma Zdigits2_nonneg (m : Z) : 0 <= m -> 0 <= Zdigits2 m.
Proof.
  intros Hm. destruct (Z.eq_dec m 0) as [-> | Hne]; [simpl; lia |].
  pose proof (Zdigits2_pos m ltac:(lia)). lia.
Qed.

Lemma fexp_mono (a b : Z) : a <= b -> fexp prec emax a <= fexp prec emax b.
Proof. intros H. rewrite !fexp_spec. lia. Qed.

Lemma emin_nonpos : (emin prec emax) <= 0.
Proof. unfold SpecFloat.emin. lia. Qed.

Lemma bounded_canonical (m : positive) (e : Z) :
  bounded prec emax m e = true ->
  fexp prec emax (Zdigits2 (Z.pos m) + e) = e /\ e <= emax - prec.
Proof.
  unfold bounded, canonical_mantissa. intros Hb.
  apply andb_true_iff in Hb. destruct Hb as [Hc He].
  apply Z.eqb_eq in Hc. apply Z.leb_le in He. split; assumption.
Qed.

(** ** Multiplication *)
Lemma SFmul_rounds (sx : bool) (mx : positive) (ex : Z)
    (sy : bool) (my : positive) (ey : Z) :
  bounded prec emax mx ex = true -> bounded prec emax my ey = true ->
  rounds_to prec emax
    ((sgn sx * inject_Z (Z.pos mx) * 2 ^ ex)
     * (sgn sy * inject_Z (Z.pos my) * 2 ^ ey))%Q
    (SFmul prec emax (S754_finite sx mx ex) (S754_finite sy my ey)).
Proof.
  intros Hbx Hby. cbn [SFmul].
  destruct (bounded_canonical mx ex Hbx) as [Hcx _].
  destruct (bounded_canonical my ey Hby) as [Hcy _].
  assert (Hv : ((sgn sx * inject_Z (Z.pos mx) * 2 ^ ex)
                * (sgn sy * inject_Z (Z.pos my) * 2 ^ ey)
                == sgn (xorb sx sy)
                   * (inject_Z (Z.pos (mx * my)) * 2 ^ (ex + ey)))%Q).
  { rewrite sgn_xorb, pow2_add. rewrite Pos2Z.inj_mul, inject_Z_mult. ring. }
  assert (HP : ex + ey <= fexp prec emax (Zdigits2 (Z.pos (mx * my)) + (ex + ey))).
  { destruct (Zdigits2_bounds (Z.pos mx) ltac:(lia)) as [Xlo _].
    destruct (Zdigits2_bounds (Z.pos my) ltac:(lia)) as [Ylo _].
    pose proof (Zdigits2_pos (Z.pos mx) ltac:(lia)) as Xp.
    pose proof (Zdigits2_pos (Z.pos my) ltac:(lia)) as Yp.
    assert (Hd : Zdigits2 (Z.pos mx) + Zdigits2 (Z.pos my) - 2
                 < Zdigits2 (Z.pos (mx * my))).
    { apply Zdigits2_lower; [lia |].
      replace (Zdigits2 (Z.pos mx) + Zdigits2 (Z.pos my) - 2)
        with ((Zdigits2 (Z.pos mx) - 1) + (Zdigits2 (Z.pos my) - 1)) by lia.
      rewrite Z.pow_add_r by lia. rewrite Pos2Z.inj_mul.
      apply Z.mul_le_mono_nonneg; try lia;
        apply Z.lt_le_incl, Z.pow_pos_nonneg; lia. }
    pose proof emin_nonpos as Hemin.
    rewrite fexp_spec in *. lia. }
  pose proof (binary_round_aux_value (xorb sx sy) (Z.pos (mx * my)) (ex + ey)
                loc_Exact (inject_Z (Z.pos (mx * my))) ltac:(lia)
                ltac:(simpl; reflexivity) HP) as H.
  unfold rounds_to in *. destruct H as [Hval H]. split; [exact Hval |].
  destruct (binary_round_aux prec emax (xorb sx sy) (Z.pos (mx * my))
              (ex + ey) loc_Exact); try rewrite Hv; exact H.
Qed.

(** ** Division *)
Lemma new_location_correct (m2 r q : Z) :
  0 < m2 -> 0 <= r < m2 ->
  inbetween q (inject_Z q + inject_Z r / inject_Z m2) (new_location m2 r).
Proof.
  intros Hm2 Hr.
  assert (HM : (0 < inject_Z m2)%Q)
    by (change 0%Q with (inject_Z 0); rewrite <- Zlt_Qlt; exact Hm2).
  assert (Hz : r = 0 -> (inject_Z q + inject_Z r / inject_Z m2 == inject_Z q)%Q).
  { intros ->. change (inject_Z 0) with 0%Q. unfold Qdiv. ring. }
  assert (Hpos : r <> 0 -> (0 < inject_Z r / inject_Z m2)%Q).
  { intros Hne. apply Qlt_shift_div_l; [exact HM |].
    assert (inject_Z 0 < inject_Z r)%Q by (rewrite <- Zlt_Qlt; lia).
    change (inject_Z 0) with 0%Q in *. lra. }
  assert (Hlt1 : (inject_Z r / inject_Z m2 < 1)%Q).
  { apply Qlt_shift_div_r; [exact HM |].
    rewrite Qmult_1_l. rewrite <- Zlt_Qlt. lia. }
  assert (Hlt : 2 * r < m2 -> (inject_Z r / inject_Z m2 < 1 # 2)%Q).
  { intros H. apply Qlt_shift_div_r; [exact HM |].
    assert (inject_Z (2 * r) < inject_Z m2)%Q by (rewrite <- Zlt_Qlt; exact H).
    rewrite inject_Z_mult in *. change (inject_Z 2) with 2%Q in *. lra. }
  assert (Hgt : m2 < 2 * r -> ((1 # 2) < inject_Z r / inject_Z m2)%Q).
  { intros H. apply Qlt_shift_div_l; [exact HM |].
    assert (inject_Z m2 < inject_Z (2 * r))%Q by (rewrite <- Zlt_Qlt; exact H).
    rewrite inject_Z_mult in *. change (inject_Z 2) with 2%Q in *. lra. }
  assert (Heq : 2 * r = m2 -> (inject_Z r / inject_Z m2 == 1 # 2)%Q).
  { intros H. rewrite <- H in *. rewrite inject_Z_mult in *.
    change (inject_Z 2) with 2%Q in *. field. lra. }
  unfold new_location, new_location_even, new_location_odd.
  change IntDef.Z.even with Z.even.
  destruct (Z.even m2) eqn:Ev; cbv beta;
    destruct (Z.eqb_spec r 0) as [Er | Er]; cbn [inbetween];
    try (apply Hz; exact Er); specialize (Hpos Er).
  - destruct (Z.compare_spec (2 * r) m2) as [He | Hl | Hg]; cbn [inbetween].
    + rewrite (Heq He). reflexivity.
    + specialize (Hlt Hl). split; lra.
    + specialize (Hgt Hg). split; lra.
  - assert (Hne : 2 * r <> m2).
    { intros He. rewrite <- He, Z.even_mul in Ev. discriminate. }
    destruct (Z.compare_spec (2 * r + 1) m2) as [He | Hl | Hg]; cbn [inbetween].
    + specialize (Hlt ltac:(lia)). split; lra.
    + specialize (Hlt ltac:(lia)). split; lra.
    + specialize (Hgt ltac:(lia)). split; lra.
Qed.

Lemma SFdiv_core_binary_correct (m1 e1 m2 e2 : Z) :
  0 < m1 -> 0 < m2 ->
  let '(q, e', l) := SFdiv_core_binary prec emax m1 e1 m2 e2 in
  0 <= q /\ e' <= fexp prec emax (Zdigits2 q + e') /\
  exists x, inbetween q x l /\
    (x * 2 ^ e' == (inject_Z m1 * 2 ^ e1) / (inject_Z m2 * 2 ^ e2))%Q.
Proof.
  intros Hm1 Hm2. unfold SFdiv_core_binary.
  change IntDef.Z.min with Z.min. change IntDef.Z.shiftl with Z.shiftl.
  change IntDef.Z.div_eucl with Z.div_eucl.
  set (D := Zdigits2 m1 + e1 - (Zdigits2 m2 + e2)).
  set (e' := Z.min (fexp prec emax D) (e1 - e2)).
  set (s := e1 - e2 - e').
  assert (Hs : 0 <= s) by (unfold s, e'; lia).
  set (m' := match s with
             | 0 => m1
             | Z.pos _ => Z.shiftl m1 s
             | Z.neg _ => 0
             end).
  assert (Hm' : m' = m1 * 2 ^ s).
  { unfold m'. destruct s as [| p | p] eqn:Es.
    - simpl. lia.
    - rewrite Z.shiftl_mul_pow2 by lia. reflexivity.
    - lia. }
  pose proof (Z.div_eucl_eq m' m2 ltac:(lia)) as Hdiv.
  pose proof (Z.mod_pos_bound m' m2 Hm2) as Hmod.
  unfold Z.modulo in Hmod.
  destruct (Z.div_eucl m' m2) as [q r].
  assert (Hpow : 0 < 2 ^ s) by (apply Z.pow_pos_nonneg; lia).
  assert (Hm'pos : 0 < m') by (rewrite Hm'; lia).
  assert (Hq : 0 <= q) by nia.
  split; [exact Hq |]. split.
  - (* the quotient is not too coarse *)
    assert (Hd : D - e' <= Zdigits2 q).
    { pose proof (Zdigits2_nonneg q Hq) as Hdq.
      destruct (Z.le_gt_cases (D - e') 0) as [Hle | Hgt]; [lia |].
      destruct (Zdigits2_bounds m1 Hm1) as [D1lo _].
      destruct (Zdigits2_bounds m2 Hm2) as [_ D2hi].
      pose proof (Zdigits2_pos m1 Hm1) as D1p.
      pose proof (Zdigits2_pos m2 Hm2) as D2p.
      set (k := D - e' - 1).
      assert (Hk : 0 <= k) by (unfold k; lia).
      assert (Hsplit : 2 ^ (Zdigits2 m1 - 1) * 2 ^ s = 2 ^ k * 2 ^ Zdigits2 m2).
      { rewrite <- !Z.pow_add_r by lia. f_equal. unfold k, D, s. lia. }
      assert (Hk2 : 0 < 2 ^ k) by (apply Z.pow_pos_nonneg; lia).
      assert (Hqk : 2 ^ k <= q) by nia.
      assert (Hqpos : 0 < q) by lia.
      pose proof (Zdigits2_lower q k Hqpos Hqk). unfold k in *. lia. }
    assert (He' : e' <= fexp prec emax D) by (unfold e'; lia).
    pose proof (fexp_mono D (Zdigits2 q + e') ltac:(lia)). lia.
  - exists (inject_Z q + inject_Z r / inject_Z m2)%Q. split.
    + apply new_location_correct; [exact Hm2 | exact Hmod].
    + assert (HM : (0 < inject_Z m2)%Q)
        by (change 0%Q with (inject_Z 0); rewrite <- Zlt_Qlt; exact Hm2).
      pose proof (pow2_pos e2) as P2.
      assert (He1 : (2 ^ e1 == 2 ^ s * 2 ^ e' * 2 ^ e2)%Q).
      { rewrite <- !pow2_add. unfold s. f_equiv. lia. }
      assert (Hq' : (inject_Z m1 * 2 ^ s
                     == inject_Z m2 * inject_Z q + inject_Z r)%Q).
      { rewrite <- (pow2_inject s Hs), <- !inject_Z_mult, <- inject_Z_plus.
        f_equiv. lia. }
      assert (Hx : (inject_Z q + inject_Z r / inject_Z m2
                    == (inject_Z m1 * 2 ^ s) / inject_Z m2)%Q).
      { rewrite Hq'. field. lra. }
      rewrite Hx, He1. field. split; lra.
Qed.

Lemma SFdiv_rounds (sx : bool) (mx : positive) (ex : Z)
    (sy : bool) (my : positive) (ey : Z) :
  rounds_to prec emax
    ((sgn sx * inject_Z (Z.pos mx) * 2 ^ ex)
     / (sgn sy * inject_Z (Z.pos my) * 2 ^ ey))%Q
    (SFdiv prec emax (S754_finite sx mx ex) (S754_finite sy my ey)).
Proof.
  cbn [SFdiv].
  pose proof (SFdiv_core_binary_correct (Z.pos mx) ex (Z.pos my) ey
                ltac:(lia) ltac:(lia)) as H.
  destruct (SFdiv_core_binary prec emax (Z.pos mx) ex (Z.pos my) ey)
    as [[q e'] l].
  destruct H as (Hq & HP & x & Hin & Hx).
  pose proof (binary_round_aux_value (xorb sx sy) q e' l x Hq Hin HP) as H.
  assert (HM : (0 < inject_Z (Z.pos my))%Q) by reflexivity.
  pose proof (pow2_pos ey) as P2.
  assert (Hv : ((sgn sx * inject_Z (Z.pos mx) * 2 ^ ex)
                / (sgn sy * inject_Z (Z.pos my) * 2 ^ ey)
                == sgn (xorb sx sy) * (x * 2 ^ e'))%Q).
  { rewrite Hx, sgn_xorb. destruct sx, sy; cbn [sgn]; field; split; lra. }
  unfold rounds_to in *. destruct H as [Hval H]. split; [exact Hval |].
  destruct (binary_round_aux prec emax (xorb sx sy) q e' l);
    try rewrite Hv; exact H.
Qed.


(** ** Rounding a number the format may not hold *)
Lemma iter_xO (m d : positive) :
  Z.pos (Pos.iter xO m d) = Z.pos m * 2 ^ Z.pos d.
Proof.
  induction d as [| d IH] using Pos.peano_ind.
  - cbn [Pos.iter]. lia.
  - rewrite Pos.iter_succ, Pos2Z.inj_succ, Z.pow_succ_r by lia.
    rewrite Pos2Z.inj_xO, IH. lia.
Qed.

Lemma shl_align_correct (mx : positive) (ex ex' : Z) :
  snd (shl_align mx ex ex') = Z.min ex ex' /\
  Z.pos (fst (shl_align mx ex ex'))
  = Z.pos mx * 2 ^ (ex - Z.min ex ex').
Proof.
  unfold shl_align. change (@PosDef.Pos.iter) with (@Pos.iter).
  destruct (ex' - ex) as [| d | d] eqn:Ed; cbn [fst snd].
  - replace (Z.min ex ex') with ex by lia. rewrite Z.sub_diag. simpl. lia.
  - replace (Z.min ex ex') with ex by lia. rewrite Z.sub_diag. simpl. lia.
  - replace (Z.min ex ex') with ex' by lia. split; [reflexivity |].
    rewrite iter_xO. f_equal. f_equal. lia.
Qed.

Lemma Zdigits2_mul_pow2 (m d : Z) :
  0 < m -> 0 <= d -> Zdigits2 (m * 2 ^ d) = Zdigits2 m + d.
Proof.
  intros Hm Hd. destruct (Zdigits2_bounds m Hm) as [Dlo Dhi].
  pose proof (Zdigits2_pos m Hm) as Dp.
  assert (Hp : 0 < 2 ^ d) by (apply Z.pow_pos_nonneg; lia).
  apply Zdigits2_unique; [nia |].
  replace (Zdigits2 m + d - 1) with ((Zdigits2 m - 1) + d) by lia.
  rewrite !Z.pow_add_r by lia. nia.
Qed.

Lemma rounds_to_ext (t t' : Q) (r : spec_float) :
  (t == t')%Q -> rounds_to prec emax t r -> rounds_to prec emax t' r.
Proof.
  intros Ht [Hv H]. split; [exact Hv |].
  destruct r; try rewrite <- Ht; exact H.
Qed.

Lemma half_step_pos : (0 < half_step prec emax)%Q.
Proof. apply pow2_pos. Qed.

Lemma unit_roundoff_pos : (0 < unit_roundoff prec)%Q.
Proof. apply pow2_pos. Qed.

Lemma binary_round_rounds (sx : bool) (mx : positive) (ex : Z) :
  rounds_to prec emax (sgn sx * inject_Z (Z.pos mx) * 2 ^ ex)
            (binary_round prec emax sx mx ex).
Proof.
  unfold binary_round.
  destruct (shl_align_correct mx ex (fexp prec emax (Z.pos (digits2_pos mx) + ex)))
    as [He Hm].
  destruct (shl_align mx ex (fexp prec emax (Z.pos (digits2_pos mx) + ex)))
    as [mz ez].
  cbn [fst snd] in He, Hm.
  change (Z.pos (digits2_pos mx)) with (Zdigits2 (Z.pos mx)) in *.
  assert (Hd : 0 <= ex - ez) by lia.
  assert (HP : ez <= fexp prec emax (Zdigits2 (Z.pos mz) + ez)).
  { rewrite Hm, <- He. rewrite Zdigits2_mul_pow2 by lia.
    replace (Zdigits2 (Z.pos mx) + (ex - ez) + ez)
      with (Zdigits2 (Z.pos mx) + ex) by lia.
    lia. }
  pose proof (binary_round_aux_value sx (Z.pos mz) ez loc_Exact
                (inject_Z (Z.pos mz)) ltac:(lia) ltac:(simpl; reflexivity) HP)
    as H.
  refine (rounds_to_ext _ _ _ _ H).
  rewrite Hm, <- He, inject_Z_mult, (pow2_inject _ Hd).
  rewrite <- !Qmult_assoc. rewrite <- pow2_add.
  replace (ex - ez + ez) with ex by lia. ring.
Qed.

Lemma binary_normalize_rounds (m e : Z) (szero : bool) :
  rounds_to prec emax (inject_Z m * 2 ^ e)
            (binary_normalize prec emax m e szero).
Proof.
  destruct m as [| p | p]; cbn [binary_normalize].
  - split; [reflexivity |]. change (inject_Z 0) with 0%Q.
    rewrite Qmult_0_l. change (Qabs 0) with 0%Q.
    apply Qlt_le_weak, half_step_pos.
  - refine (rounds_to_ext _ _ _ _ (binary_round_rounds false p e)).
    cbn [sgn]. ring.
  - refine (rounds_to_ext _ _ _ _ (binary_round_rounds true p e)).
    cbn [sgn]. change (inject_Z (Z.neg p)) with (- inject_Z (Z.pos p))%Q. ring.
Qed.

Lemma cond_Zopp_inject (s : bool) (m : Z) :
  (inject_Z (cond_Zopp s m) == sgn s * inject_Z m)%Q.
Proof.
  destruct s; cbn [cond_Zopp sgn]; [rewrite inject_Z_opp |]; ring.
Qed.

Lemma aligned_value (mx : positive) (ex ez : Z) :
  ez <= ex ->
  (inject_Z (Z.pos (fst (shl_align mx ex ez))) * 2 ^ ez
   == inject_Z (Z.pos mx) * 2 ^ ex)%Q.
Proof.
  intros Hle. destruct (shl_align_correct mx ex ez) as [_ Hm].
  rewrite Hm. replace (Z.min ex ez) with ez by lia.
  rewrite inject_Z_mult, pow2_inject by lia.
  rewrite <- Qmult_assoc, <- pow2_add.
  replace (ex - ez + ez) with ex by lia. reflexivity.
Qed.

Lemma SFadd_rounds (sx : bool) (mx : positive) (ex : Z)
    (sy : bool) (my : positive) (ey : Z) :
  rounds_to prec emax
    ((sgn sx * inject_Z (Z.pos mx) * 2 ^ ex)
     + (sgn sy * inject_Z (Z.pos my) * 2 ^ ey))%Q
    (SFadd prec emax (S754_finite sx mx ex) (S754_finite sy my ey)).
Proof.
  cbn [SFadd]. change IntDef.Z.min with Z.min.
  set (ez := Z.min ex ey).
  refine (rounds_to_ext _ _ _ _ (binary_normalize_rounds _ ez false)).
  rewrite inject_Z_plus, !cond_Zopp_inject.
  rewrite Qmult_plus_distr_l, <- !Qmult_assoc.
  rewrite (aligned_value mx ex ez) by (unfold ez; lia).
  rewrite (aligned_value my ey ez) by (unfold ez; lia).
  reflexivity.
Qed.

Lemma SFsub_rounds (sx : bool) (mx : positive) (ex : Z)
    (sy : bool) (my : positive) (ey : Z) :
  rounds_to prec emax
    ((sgn sx * inject_Z (Z.pos mx) * 2 ^ ex)
     - (sgn sy * inject_Z (Z.pos my) * 2 ^ ey))%Q
    (SFsub prec emax (S754_finite sx mx ex) (S754_finite sy my ey)).
Proof.
  cbn [SFsub]. change IntDef.Z.min with Z.min.
  set (ez := Z.min ex ey).
  refine (rounds_to_ext _ _ _ _ (binary_normalize_rounds _ ez false)).
  unfold Z.sub at 1. rewrite inject_Z_plus, inject_Z_opp, !cond_Zopp_inject.
  assert (Hx := aligned_value mx ex ez ltac:(unfold ez; lia)).
  assert (Hy := aligned_value my ey ez ltac:(unfold ez; lia)).
  transitivity
    (sgn sx * (inject_Z (Z.pos (fst (shl_align mx ex ez))) * 2 ^ ez)
     - sgn sy * (inject_Z (Z.pos (fst (shl_align my ey ez))) * 2 ^ ez))%Q;
    [ring |].
  rewrite Hx, Hy. ring.
Qed.


(** ** The four operators on finite operands *)
Lemma float_value_finite (x : spec_float) (q : Q) :
  float_value x = Some q -> is_finite x = true.
Proof. destruct x; (discriminate || reflexivity). Qed.

Lemma finite_float_value (x : spec_float) :
  is_finite x = true -> exists q, float_value x = Some q.
Proof. destruct x; try discriminate; intros _; eexists; reflexivity. Qed.

Lemma finite_value_nonzero (s : bool) (m : positive) (e : Z) :
  ~ (sgn s * inject_Z (Z.pos m) * 2 ^ e == 0)%Q.
Proof.
  pose proof (pow2_pos e) as He.
  assert (Hm : (0 < inject_Z (Z.pos m))%Q) by reflexivity.
  intros H.
  assert (Hp : (0 < inject_Z (Z.pos m) * 2 ^ e)%Q)
    by (apply Qmult_lt_0_compat; assumption).
  destruct s; cbn [sgn] in H; lra.
Qed.

Lemma rounds_to_exact (r : spec_float) (q : Q) :
  valid_binary prec emax r = true -> float_value r = Some q ->
  rounds_to prec emax q r.
Proof.
  intros Hv Hq. split; [exact Hv |].
  pose proof half_step_pos as Heta. pose proof unit_roundoff_pos as Hu.
  destruct r as [s | s | | s m e]; try discriminate;
    injection Hq as <-.
  - change (Qabs 0) with 0%Q. lra.
  - change (if s then -1 else 1)%Q with (sgn s).
    assert (Hz : (sgn s * inject_Z (Z.pos m) * 2 ^ e
                  - sgn s * inject_Z (Z.pos m) * 2 ^ e == 0)%Q) by ring.
    rewrite Hz. change (Qabs 0) with 0%Q.
    pose proof (pow2_pos e) as He.
    assert (Hm : (0 < inject_Z (Z.pos m))%Q) by reflexivity.
    assert (0 < inject_Z (Z.pos m) * 2 ^ e)%Q
      by (apply Qmult_lt_0_compat; assumption).
    assert (0 < unit_roundoff prec * (inject_Z (Z.pos m) * 2 ^ e))%Q
      by (apply Qmult_lt_0_compat; assumption).
    lra.
Qed.

Lemma rounds_to_valid (t : Q) (r : spec_float) :
  rounds_to prec emax t r -> valid_binary prec emax r = true.
Proof. intros [H _]. exact H. Qed.

Lemma rounds_to_error (t : Q) (r : spec_float) (q : Q) :
  rounds_to prec emax t r -> float_value r = Some q ->
  (Qabs (q - t) <= unit_roundoff prec * Qabs q + half_step prec emax)%Q.
Proof.
  intros [_ H] Hq.
  destruct r as [s | s | | s m e]; try discriminate; injection Hq as <-.
  - change (Qabs 0) with 0%Q. rewrite Qmult_0_r, Qplus_0_l.
    assert (Hz : (0 - t == - t)%Q) by ring.
    rewrite Hz, Qabs_opp. exact H.
  - change (if s then -1 else 1)%Q with (sgn s).
    assert (Ha : (Qabs (sgn s * inject_Z (Z.pos m) * 2 ^ e)
                  == inject_Z (Z.pos m) * 2 ^ e)%Q).
    { rewrite <- Qmult_assoc, sgn_abs. apply Qabs_pos.
      apply Qmult_le_0_compat; [discriminate |].
      apply Qlt_le_weak, pow2_pos. }
    rewrite Ha. exact H.
Qed.

Lemma rounds_to_in_range (t : Q) (r : spec_float) :
  rounds_to prec emax t r -> (Qabs t < 2 ^ (emax - 1))%Q ->
  is_finite r = true.
Proof.
  intros [_ H] Ht. destruct r as [s | s | | s m e];
    try reflexivity; [| destruct H].
  apply Qle_not_lt in H. contradiction.
Qed.

Lemma SFadd_spec (x y : spec_float) (qx qy : Q) :
  valid_binary prec emax x = true -> valid_binary prec emax y = true ->
  float_value x = Some qx -> float_value y = Some qy ->
  rounds_to prec emax (qx + qy) (SFadd prec emax x y).
Proof.
  intros Vx Vy Hx Hy.
  destruct x as [sx | sx | | sx mx ex]; try discriminate;
    destruct y as [sy | sy | | sy my ey]; try discriminate;
    injection Hx as <-; injection Hy as <-.
  - refine (rounds_to_ext 0 _ _ _ _); [ring |].
    destruct sx, sy; apply rounds_to_exact; reflexivity.
  - cbn [SFadd]. refine (rounds_to_ext _ _ _ _ (rounds_to_exact _ _ Vy eq_refl)).
    ring.
  - cbn [SFadd]. refine (rounds_to_ext _ _ _ _ (rounds_to_exact _ _ Vx eq_refl)).
    ring.
  - apply SFadd_rounds.
Qed.

Lemma SFsub_spec (x y : spec_float) (qx qy : Q) :
  valid_binary prec emax x = true -> valid_binary prec emax y = true ->
  float_value x = Some qx -> float_value y = Some qy ->
  rounds_to prec emax (qx - qy) (SFsub prec emax x y).
Proof.
  intros Vx Vy Hx Hy.
  destruct x as [sx | sx | | sx mx ex]; try discriminate;
    destruct y as [sy | sy | | sy my ey]; try discriminate;
    injection Hx as <-; injection Hy as <-.
  - refine (rounds_to_ext 0 _ _ _ _); [ring |].
    destruct sx, sy; apply rounds_to_exact; reflexivity.
  - cbn [SFsub].
    refine (rounds_to_ext _ _ _ _
              (rounds_to_exact (S754_finite (negb sy) my ey) _ Vy eq_refl)).
    destruct sy; cbn [negb]; ring.
  - cbn [SFsub]. refine (rounds_to_ext _ _ _ _ (rounds_to_exact _ _ Vx eq_refl)).
    ring.
  - apply SFsub_rounds.
Qed.

Lemma SFmul_spec (x y : spec_float) (qx qy : Q) :
  valid_binary prec emax x = true -> valid_binary prec emax y = true ->
  float_value x = Some qx -> float_value y = Some qy ->
  rounds_to prec emax (qx * qy) (SFmul prec emax x y).
Proof.
  intros Vx Vy Hx Hy.
  destruct x as [sx | sx | | sx mx ex]; try discriminate;
    destruct y as [sy | sy | | sy my ey]; try discriminate;
    injection Hx as <-; injection Hy as <-.
  - refine (rounds_to_ext 0 _ _ _ _); [ring |].
    apply rounds_to_exact; reflexivity.
  - refine (rounds_to_ext 0 _ _ _ _); [ring |].
    apply rounds_to_exact; reflexivity.
  - refine (rounds_to_ext 0 _ _ _ _); [ring |].
    apply rounds_to_exact; reflexivity.
  - apply SFmul_rounds; assumption.
Qed.

Lemma SFdiv_spec (x y : spec_float) (qx qy : Q) :
  float_value x = Some qx -> float_value y = Some qy -> ~ (qy == 0)%Q ->
  rounds_to prec emax (qx / qy) (SFdiv prec emax x y).
Proof.
  intros Hx Hy Hne.
  destruct x as [sx | sx | | sx mx ex]; try discriminate;
    destruct y as [sy | sy | | sy my ey]; try discriminate;
    injection Hx as <-; injection Hy as <-;
    try (exfalso; apply Hne; reflexivity).
  - refine (rounds_to_ext 0 _ _ _ _); [unfold Qdiv; ring |].
    apply rounds_to_exact; reflexivity.
  - apply SFdiv_rounds.
Qed.

(** A finite float of the format is no smaller than the smallest positive
    number of the format. *)
Lemma bounded_value_lower (m : positive) (e : Z) :
  bounded prec emax m e = true ->
  (2 * half_step prec emax <= inject_Z (Z.pos m) * 2 ^ e)%Q.
Proof.
  intros Hb. destruct (bounded_canonical m e Hb) as [Hc _].
  rewrite fexp_spec in Hc.
  assert (He : (emin prec emax) <= e) by lia.
  unfold half_step. rewrite pow2_half.
  pose proof (pow2_le (emin prec emax) e He) as Hp.
  pose proof (pow2_pos e) as Hpe.
  assert (Hm : (1 <= inject_Z (Z.pos m))%Q).
  { change 1%Q with (inject_Z 1). rewrite <- Zle_Qle. lia. }
  assert (H1 : (1 * 2 ^ e <= inject_Z (Z.pos m) * 2 ^ e)%Q).
  { apply Qmult_le_compat_r; lra. }
  lra.
Qed.

End Format.

End Rounding.

(** ** Accumulated rounding errors *)

Section ErrorAnalysis.

Local Open Scope Q_scope.

Lemma scale_le (u a b : Q) : 0 <= u -> a <= b -> u * a <= u * b.
Proof.
  intros Hu H. rewrite (Qmult_comm u a), (Qmult_comm u b).
  apply Qmult_le_compat_r; assumption.
Qed.

Lemma rounding_step (u a t b : Q) :
  0 <= u -> u <= 1 # 256 -> 0 <= b ->
  Qabs (a - t) <= u * Qabs a + b ->
  u * Qabs a <= u * Qabs t + (1 # 256) * (u * Qabs a) + (1 # 256) * b.
Proof.
  intros Hu0 Hu Hb H.
  assert (Htri : Qabs a <= Qabs t + (u * Qabs a + b)).
  { assert (Ha : a == t + (a - t)) by ring.
    rewrite Ha at 1. eapply Qle_trans; [apply Qabs_triangle |].
    apply Qplus_le_r. exact H. }
  pose proof (Qabs_nonneg a) as Ha0.
  assert (Hua : 0 <= u * Qabs a) by (apply Qmult_le_0_compat; assumption).
  assert (H1 : u * Qabs a <= u * (Qabs t + (u * Qabs a + b))).
  { apply scale_le; assumption. }
  assert (H2 : u * (u * Qabs a) <= (1 # 256) * (u * Qabs a)).
  { apply Qmult_le_compat_r; assumption. }
  assert (H3 : u * b <= (1 # 256) * b).
  { apply Qmult_le_compat_r; assumption. }
  lra.
Qed.

Lemma scaled_triangle (u p e : Q) :
  0 <= u -> u * Qabs (p + e) <= u * Qabs p + u * Qabs e.
Proof.
  intros Hu. rewrite <- Qmult_plus_distr_r.
  apply scale_le; [exact Hu | apply Qabs_triangle].
Qed.

Lemma scaled_triangle_minus (u p e : Q) :
  0 <= u -> u * Qabs (p - e) <= u * Qabs p + u * Qabs e.
Proof.
  intros Hu. unfold Qminus. rewrite <- (Qabs_opp e). apply scaled_triangle, Hu.
Qed.

Lemma scale_error (c a t u b : Q) :
  0 <= u ->
  Qabs (a - t) <= u * Qabs a + b ->
  Qabs (c * a - c * t) <= u * Qabs (c * a) + Qabs c * b.
Proof.
  intros Hu H.
  assert (He : c * a - c * t == c * (a - t)) by ring.
  rewrite He, !Qabs_Qmult.
  assert (Hc : Qabs c * Qabs (a - t) <= Qabs c * (u * Qabs a + b)).
  { apply scale_le; [apply Qabs_nonneg | exact H]. }
  lra.
Qed.

(** Two roundings: a division by [k] and a multiplication by [k]. *)
Lemma two_roundings (u eta k x q r : Q) :
  0 <= u -> u <= 1 # 256 -> 0 <= eta -> 0 < k ->
  Qabs (q - x / k) <= u * Qabs q + eta ->
  Qabs (r - q * k) <= u * Qabs r + eta ->
  Qabs (r - x) <= 3 * (u * Qabs x) + 2 * ((k + 1) * eta).
Proof.
  intros Hu0 Hu He Hk H1 H2.
  apply (scale_error k) in H1; [| exact Hu0].
  assert (Hx : k * (x / k) == x) by (field; lra).
  rewrite Hx in H1. rewrite (Qabs_pos k) in H1 by lra.
  rewrite (Qmult_comm q k) in H2.
  assert (Hke : 0 <= k * eta) by (apply Qmult_le_0_compat; lra).
  pose proof (rounding_step u (k * q) x (k * eta) Hu0 Hu Hke H1) as G1.
  pose proof (rounding_step u r (k * q) eta Hu0 Hu He H2) as G2.
  apply Qabs_Qle_condition in H1. apply Qabs_Qle_condition in H2.
  pose proof (Qabs_nonneg x) as Hx0.
  assert (Hux : 0 <= u * Qabs x) by (apply Qmult_le_0_compat; assumption).
  apply Qabs_Qle_condition. split; lra.
Qed.

(** The eight roundings of a call and its inverse call, with the
    intermediate results scaled to the original range. *)
Lemma eight_roundings (u eta x a0 b0 w sc s1 q1 p1 y s2 q2 p2 z : Q) :
  0 <= u -> u <= 1 # 256 -> 0 <= eta -> ~ w == 0 -> ~ sc == 0 ->
  Qabs (s1 - (x - a0)) <= u * Qabs s1 + eta ->
  Qabs (q1 - s1 / w) <= u * Qabs q1 + eta ->
  Qabs (p1 - q1 * sc) <= u * Qabs p1 + eta ->
  Qabs (y - (p1 + b0)) <= u * Qabs y + eta ->
  Qabs (s2 - (y - b0)) <= u * Qabs s2 + eta ->
  Qabs (q2 - s2 / sc) <= u * Qabs q2 + eta ->
  Qabs (p2 - q2 * w) <= u * Qabs p2 + eta ->
  Qabs (z - (p2 + a0)) <= u * Qabs z + eta ->
  Qabs (z - x)
  <= 10 * (u * (Qabs x + Qabs a0 + Qabs (w / sc) * Qabs b0))
     + 4 * (eta * (1 + Qabs w + Qabs (w / sc))).
Proof.
  intros Hu0 Hu He Hw Hsc E1 E2 E3 E4 E5 E6 E7 E8.
  set (R := w / sc) in *.
  apply (scale_error w) in E2; [| exact Hu0].
  apply (scale_error R) in E3; [| exact Hu0].
  apply (scale_error R) in E4; [| exact Hu0].
  apply (scale_error R) in E5; [| exact Hu0].
  apply (scale_error w) in E6; [| exact Hu0].
  assert (X2 : w * (s1 / w) == s1) by (field; exact Hw).
  assert (X3 : R * (q1 * sc) == w * q1) by (unfold R; field; exact Hsc).
  assert (X4 : R * (p1 + b0) == R * p1 + R * b0) by ring.
  assert (X5 : R * (y - b0) == R * y - R * b0) by ring.
  assert (X6 : w * (s2 / sc) == R * s2) by (unfold R; field; exact Hsc).
  assert (X7 : q2 * w == w * q2) by ring.
  rewrite X2 in E2. rewrite X3 in E3. rewrite X4 in E4. rewrite X5 in E5.
  rewrite X6 in E6. rewrite X7 in E7.
  pose proof (Qabs_nonneg w) as W0. pose proof (Qabs_nonneg R) as R0.
  assert (WE0 : 0 <= Qabs w * eta) by (apply Qmult_le_0_compat; assumption).
  assert (RE0 : 0 <= Qabs R * eta) by (apply Qmult_le_0_compat; assumption).
  pose proof (rounding_step u _ _ _ Hu0 Hu He E1) as G1.
  pose proof (rounding_step u _ _ _ Hu0 Hu WE0 E2) as G2.
  pose proof (rounding_step u _ _ _ Hu0 Hu RE0 E3) as G3.
  pose proof (rounding_step u _ _ _ Hu0 Hu RE0 E4) as G4.
  pose proof (rounding_step u _ _ _ Hu0 Hu RE0 E5) as G5.
  pose proof (rounding_step u _ _ _ Hu0 Hu WE0 E6) as G6.
  pose proof (rounding_step u _ _ _ Hu0 Hu He E7) as G7.
  pose proof (rounding_step u _ _ _ Hu0 Hu He E8) as G8.
  pose proof (scaled_triangle_minus u x a0 Hu0) as T1.
  pose proof (scaled_triangle u (R * p1) (R * b0) Hu0) as T4.
  pose proof (scaled_triangle_minus u (R * y) (R * b0) Hu0) as T5.
  pose proof (scaled_triangle u p2 a0 Hu0) as T8.
  assert (HB : Qabs (R * b0) == Qabs R * Qabs b0) by apply Qabs_Qmult.
  rewrite HB in T4, T5.
  apply Qabs_Qle_condition in E1. apply Qabs_Qle_condition in E2.
  apply Qabs_Qle_condition in E3. apply Qabs_Qle_condition in E4.
  apply Qabs_Qle_condition in E5. apply Qabs_Qle_condition in E6.
  apply Qabs_Qle_condition in E7. apply Qabs_Qle_condition in E8.
  assert (UX : 0 <= u * Qabs x)
    by (apply Qmult_le_0_compat; [exact Hu0 | apply Qabs_nonneg]).
  assert (UA : 0 <= u * Qabs a0)
    by (apply Qmult_le_0_compat; [exact Hu0 | apply Qabs_nonneg]).
  assert (UB : 0 <= u * (Qabs R * Qabs b0)).
  { apply Qmult_le_0_compat; [exact Hu0 |].
    apply Qmult_le_0_compat; apply Qabs_nonneg. }
  set (U1 := u * Qabs s1) in *. set (U2 := u * Qabs (w * q1)) in *.
  set (U3 := u * Qabs (R * p1)) in *. set (U4 := u * Qabs (R * y)) in *.
  set (U5 := u * Qabs (R * s2)) in *. set (U6 := u * Qabs (w * q2)) in *.
  set (U7 := u * Qabs p2) in *. set (U8 := u * Qabs z) in *.
  set (uX := u * Qabs x) in *. set (uA := u * Qabs a0) in *.
  set (uB := u * (Qabs R * Qabs b0)) in *.
  set (WE := Qabs w * eta) in *. set (RE := Qabs R * eta) in *.
  assert (Hgoal : 10 * (u * (Qabs x + Qabs a0 + Qabs R * Qabs b0))
                  + 4 * (eta * (1 + Qabs w + Qabs R))
                  == 10 * (uX + uA + uB) + 4 * (eta + WE + RE)).
  { unfold uX, uA, uB, WE, RE. ring. }
  rewrite Hgoal.
  apply Qabs_Qle_condition. split; lra.
Qed.

Lemma magnitude_step (u a t b : Q) :
  0 <= u -> u <= 1 # 256 ->
  Qabs (a - t) <= u * Qabs a + b ->
  (255 # 256) * Qabs a <= Qabs t + b.
Proof.
  intros Hu0 Hu H.
  assert (Htri : Qabs a <= Qabs t + (u * Qabs a + b)).
  { assert (Ha : a == t + (a - t)) by ring.
    rewrite Ha at 1. eapply Qle_trans; [apply Qabs_triangle |].
    apply Qplus_le_r. exact H. }
  assert (Hs : u * Qabs a <= (1 # 256) * Qabs a).
  { apply Qmult_le_compat_r; [exact Hu | apply Qabs_nonneg]. }
  lra.
Qed.

Lemma Qabs_positive (a : Q) : ~ a == 0 -> 0 < Qabs a.
Proof.
  intros Ha. destruct (Qlt_le_dec 0 (Qabs a)) as [H | H]; [exact H |].
  exfalso. apply Ha. pose proof (Qabs_nonneg a) as H0.
  assert (Hz : Qabs a == 0) by lra.
  pose proof (Qle_Qabs a) as H1. pose proof (Qle_Qabs (- a)) as H2.
  rewrite Qabs_opp in H2. lra.
Qed.

Lemma Qabs_div (x a : Q) : Qabs (x / a) == Qabs x / Qabs a.
Proof. unfold Qdiv. rewrite Qabs_Qmult, Qabs_Qinv. reflexivity. Qed.

(** Magnitudes on the way of a round trip between two zero-based ranges
    [[0, a]] and [[0, b]], for an element no larger than [a]. *)
Lemma zero_based_magnitudes (u eta G x a b : Q) :
  0 <= u -> u <= 1 # 256 -> 0 <= eta -> eta <= 1 # 1024 -> 4 <= G ->
  ~ a == 0 -> ~ b == 0 -> 2 * eta <= Qabs b ->
  Qabs x <= Qabs a -> Qabs a <= G -> Qabs b <= G ->
  Qabs (x / a) < 2 * G /\
  forall q1,
    Qabs (q1 - x / a) <= u * Qabs q1 + eta ->
    Qabs (q1 * b) < 2 * G /\
    forall p1,
      Qabs (p1 - q1 * b) <= u * Qabs p1 + eta ->
      Qabs (p1 / b) < 2 * G /\
      forall q2,
        Qabs (q2 - p1 / b) <= u * Qabs q2 + eta ->
        Qabs (q2 * a) < 2 * G.
Proof.
  intros Hu0 Hu He0 He HG Ha Hb Hbig Hxa HaG HbG.
  pose proof (Qabs_positive a Ha) as Apos.
  pose proof (Qabs_positive b Hb) as Bpos.
  assert (Hr : Qabs (x / a) <= 1).
  { rewrite Qabs_div. apply Qle_shift_div_r; [exact Apos | lra]. }
  assert (HAe : Qabs a * eta <= (1 # 1024) * Qabs a).
  { rewrite (Qmult_comm (Qabs a)). apply Qmult_le_compat_r; lra. }
  assert (HBe : Qabs b * eta <= (1 # 1024) * Qabs b).
  { rewrite (Qmult_comm (Qabs b)). apply Qmult_le_compat_r; lra. }
  assert (Hinv : / Qabs b * eta <= 1 # 2).
  { rewrite Qmult_comm. apply Qle_shift_div_r; [exact Bpos | lra]. }
  split; [lra |]. intros q1 E2.
  pose proof (magnitude_step u q1 (x / a) eta Hu0 Hu E2) as M1.
  (* q1 scaled by b and by a *)
  pose proof (scale_error b _ _ _ _ Hu0 E2) as E2b.
  pose proof (magnitude_step u _ _ _ Hu0 Hu E2b) as M2b.
  assert (Hbr : Qabs (b * (x / a)) <= Qabs b).
  { rewrite Qabs_Qmult. rewrite <- (Qmult_1_r (Qabs b)) at 2.
    apply scale_le; [apply Qabs_nonneg | exact Hr]. }
  pose proof (scale_error a _ _ _ _ Hu0 E2) as E2a.
  assert (Hax : a * (x / a) == x) by (field; exact Ha).
  rewrite Hax in E2a.
  pose proof (magnitude_step u _ _ _ Hu0 Hu E2a) as M2a.
  split.
  { rewrite (Qmult_comm q1 b). lra. }
  intros p1 E3.
  (* p1 scaled by 1/b and by a/b *)
  pose proof (scale_error (/ b) _ _ _ _ Hu0 E3) as E3b.
  assert (Hpb : / b * p1 == p1 / b) by (unfold Qdiv; ring).
  assert (Hqb : / b * (q1 * b) == q1) by (field; exact Hb).
  rewrite Hpb, Hqb, Qabs_Qinv in E3b.
  assert (E3b' : Qabs (p1 / b - q1) <= u * Qabs (p1 / b) + (1 # 2)) by lra.
  pose proof (magnitude_step u _ _ _ Hu0 Hu E3b') as M3b.
  split; [lra |].
  intros q2 E6.
  pose proof (scale_error a _ _ _ _ Hu0 E3b) as E3a.
  assert (Hhalf : Qabs a * (/ Qabs b * eta) <= (1 # 2) * Qabs a).
  { rewrite (Qmult_comm (1 # 2)). apply scale_le; [apply Qabs_nonneg | exact Hinv]. }
  assert (E3a' : Qabs (a * (p1 / b) - a * q1)
                 <= u * Qabs (a * (p1 / b)) + (1 # 2) * Qabs a) by lra.
  pose proof (magnitude_step u _ _ _ Hu0 Hu E3a') as M3a.
  pose proof (scale_error a _ _ _ _ Hu0 E6) as E6a.
  pose proof (magnitude_step u _ _ _ Hu0 Hu E6a) as M6a.
  rewrite (Qmult_comm q2 a). lra.
Qed.

End ErrorAnalysis.

(** ** The formats *)

Lemma prec_positive (fmt : float_format) : (0 < prec fmt)%Z.
Proof. destruct fmt; reflexivity. Qed.

Lemma prec_below_emax (fmt : float_format) : (prec fmt < emax fmt)%Z.
Proof. destruct fmt; reflexivity. Qed.

Lemma unit_roundoff_small (fmt : float_format) :
  (0 <= unit_roundoff (prec fmt) /\ unit_roundoff (prec fmt) <= 1 # 256)%Q.
Proof.
  split; [apply Qlt_le_weak, pow2_pos |].
  unfold unit_roundoff. change (1 # 256)%Q with (2 ^ (-8))%Q.
  apply pow2_le. destruct fmt; cbn [prec]; lia.
Qed.

Lemma half_step_small (fmt : float_format) :
  (1024 * half_step (prec fmt) (emax fmt) <= 2 ^ (emax fmt - 1))%Q.
Proof.
  unfold half_step. change 1024%Q with (2 ^ 10)%Q. rewrite <- pow2_add.
  apply pow2_le. unfold emin. destruct fmt; cbn [prec emax]; lia.
Qed.

Lemma half_step_tiny (fmt : float_format) :
  (half_step (prec fmt) (emax fmt) <= 1 # 1024)%Q.
Proof.
  unfold half_step. change (1 # 1024)%Q with (2 ^ (-10))%Q.
  apply pow2_le. unfold emin. destruct fmt; cbn [prec emax]; lia.
Qed.

Lemma range_quarter (fmt : float_format) :
  (4 <= 2 ^ (emax fmt - 2) /\
   2 * 2 ^ (emax fmt - 2) == 2 ^ (emax fmt - 1))%Q.
Proof.
  split.
  - change 4%Q with (2 ^ 2)%Q. apply pow2_le. destruct fmt; cbn [emax]; lia.
  - replace (emax fmt - 2)%Z with (emax fmt - 1 - 1)%Z by lia.
    rewrite (pow2_half (emax fmt - 1)). ring.
Qed.

(** Every cast gives a float of the format. *)
Lemma cast_float_in_format (fmt : float_format) (v : scalar) :
  valid_binary (prec fmt) (emax fmt) (cast_float fmt v) = true.
Proof.
  destruct v as [z | f].
  - cbn [cast_float]. unfold dyadic.
    exact (rounds_to_valid _ _ _ _
             (binary_normalize_rounds (prec fmt) (emax fmt)
                (prec_positive fmt) (prec_below_emax fmt) z 0 false)).
  - destruct f as [s | s | | s m e]; try reflexivity.
    cbn [cast_float].
    exact (rounds_to_valid _ _ _ _
             (binary_round_rounds (prec fmt) (emax fmt)
                (prec_positive fmt) (prec_below_emax fmt) s m e)).
Qed.

Lemma cast_float_finite_inv (fmt : float_format) (f : spec_float) :
  is_finite (cast_float fmt (SFloat f)) = true -> is_finite f = true.
Proof. destruct f; (discriminate || reflexivity). Qed.

(** ** Finite results have finite operands *)

Section FiniteResults.

Variables p e : Z.

Lemma SFadd_finite_inv (x y : spec_float) :
  is_finite (SFadd p e x y) = true ->
  is_finite x = true /\ is_finite y = true.
Proof.
  destruct x as [sx | sx | | sx mx ex], y as [sy | sy | | sy my ey];
    try (intros H; discriminate H); try (split; reflexivity);
    destruct sx, sy; intros H; discriminate H.
Qed.

Lemma SFsub_finite_inv (x y : spec_float) :
  is_finite (SFsub p e x y) = true ->
  is_finite x = true /\ is_finite y = true.
Proof.
  destruct x as [sx | sx | | sx mx ex], y as [sy | sy | | sy my ey];
    try (intros H; discriminate H); try (split; reflexivity);
    destruct sx, sy; intros H; discriminate H.
Qed.

Lemma SFmul_finite_inv (x y : spec_float) :
  is_finite (SFmul p e x y) = true ->
  is_finite x = true /\ is_finite y = true.
Proof.
  destruct x as [sx | sx | | sx mx ex], y as [sy | sy | | sy my ey];
    try (intros H; discriminate H); split; reflexivity.
Qed.

Lemma SFdiv_finite_inv (x y : spec_float) :
  is_finite (SFdiv p e x y) = true ->
  is_finite x = true /\ zero_or_nan y = false.
Proof.
  destruct x as [sx | sx | | sx mx ex], y as [sy | sy | | sy my ey];
    try (intros H; discriminate H); split; reflexivity.
Qed.

Lemma SFsub_zero_r (x : spec_float) : SFsub p e x (S754_zero false) = x.
Proof. destruct x as [[] | | |]; reflexivity. Qed.

Lemma SFadd_zero_r (x : spec_float) :
  float_value (SFadd p e x (S754_zero false)) = float_value x /\
  is_finite (SFadd p e x (S754_zero false)) = is_finite x.
Proof. destruct x as [[] | | |]; split; reflexivity. Qed.

(** Subtracting or adding a zero of either sign keeps the value. *)
Lemma SFsub_zero_any (x : spec_float) (s : bool) :
  float_value (SFsub p e x (S754_zero s)) = float_value x /\
  is_finite (SFsub p e x (S754_zero s)) = is_finite x /\
  (valid_binary p e x = true ->
   valid_binary p e (SFsub p e x (S754_zero s)) = true).
Proof.
  destruct x as [[] | | |], s; repeat split; try reflexivity; intros H; exact H.
Qed.

Lemma SFadd_zero_any (x : spec_float) (s : bool) :
  float_value (SFadd p e x (S754_zero s)) = float_value x /\
  is_finite (SFadd p e x (S754_zero s)) = is_finite x /\
  (valid_binary p e x = true ->
   valid_binary p e (SFadd p e x (S754_zero s)) = true).
Proof.
  destruct x as [[] | | |], s; repeat split; try reflexivity; intros H; exact H.
Qed.

End FiniteResults.

(** Only the zeros stand for 0. *)
Lemma zero_value_inv (f : spec_float) :
  float_value f = Some 0%Q -> exists s, f = S754_zero s.
Proof.
  destruct f as [s | s | | s m e]; try discriminate.
  - intros _. exists s. reflexivity.
  - intros H. exfalso. apply (finite_value_nonzero s m e).
    pose proof (f_equal (fun o => match o with
                                  | Some q => q
                                  | None => 0%Q
                                  end) H) as Hq.
    cbn [float_value] in Hq. change (sgn s) with (if s then -1 else 1)%Q.
    rewrite Hq. reflexivity.
Qed.

(** A non-zero float of the format is at least the smallest positive number
    of the format in magnitude. *)
Lemma float_value_lower (fmt : float_format) (f : spec_float) (q : Q) :
  valid_binary (prec fmt) (emax fmt) f = true ->
  float_value f = Some q -> ~ (q == 0)%Q ->
  (2 * half_step (prec fmt) (emax fmt) <= Qabs q)%Q.
Proof.
  destruct f as [s | s | | s m e]; try discriminate.
  - intros _ H Hne. injection H as <-. exfalso. apply Hne. reflexivity.
  - cbn [valid_binary float_value]. intros Hb H _. injection H as <-.
    change (if s then -1 else 1)%Q with (sgn s).
    rewrite <- Qmult_assoc, sgn_abs.
    rewrite Qabs_pos.
    + exact (bounded_value_lower (prec fmt) (emax fmt) m e Hb).
    + apply Qmult_le_0_compat; [discriminate | apply Qlt_le_weak, pow2_pos].
Qed.

(** A finite float that is not a zero stands for a non-zero number. *)
Lemma float_value_nonzero (x : spec_float) (q : Q) :
  zero_or_nan x = false -> float_value x = Some q -> ~ (q == 0)%Q.
Proof.
  destruct x as [s | s | | s m e]; try discriminate.
  intros _ H. injection H as <-.
  change (if s then -1 else 1)%Q with (sgn s). apply finite_value_nonzero.
Qed.

(** A finite result of an operator, with its value and its error. *)
Lemma finite_rounding (fmt : float_format) (t : Q) (r : spec_float) :
  rounds_to (prec fmt) (emax fmt) t r -> is_finite r = true ->
  exists q, float_value r = Some q /\
            valid_binary (prec fmt) (emax fmt) r = true /\
            (Qabs (q - t) <= unit_roundoff (prec fmt) * Qabs q
                             + half_step (prec fmt) (emax fmt))%Q.
Proof.
  intros Hr Hf. destruct (finite_float_value r Hf) as [q Hq].
  exists q. split; [exact Hq |]. split.
  - exact (rounds_to_valid _ _ _ _ Hr).
  - exact (rounds_to_error _ _ _ _ _ Hr Hq).
Qed.

(** Rounding a float that the format already holds returns it. *)
Lemma binary_round_bounded (p e : Z) (s : bool) (m : positive) (ex : Z) :
  bounded p e m ex = true ->
  binary_round p e s m ex = S754_finite s m ex.
Proof.
  unfold bounded, canonical_mantissa. intros H.
  apply andb_prop in H. destruct H as [Hc He]. apply Z.eqb_eq in Hc.
  unfold binary_round, shl_align. rewrite Hc, Z.sub_diag.
  unfold binary_round_aux, shr_fexp. cbn [Zdigits2 shr_record_of_loc].
  rewrite Hc, Z.sub_diag. cbn [shr shr_m loc_of_shr_record round_nearest_even].
  cbn [Zdigits2 shr_record_of_loc]. rewrite Hc, Z.sub_diag.
  cbn [shr shr_m]. rewrite He. reflexivity.
Qed.

Lemma cast_float_valid (fmt : float_format) (f : spec_float) :
  valid_binary (prec fmt) (emax fmt) f = true ->
  cast_float fmt (SFloat f) = f.
Proof.
  destruct f as [s | s | | s m ex]; try reflexivity.
  cbn [valid_binary cast_float]. apply binary_round_bounded.
Qed.

(** ** Round trips *)

(** One element of a call and its inverse call, operation by operation:
    the eight roundings, each within half a unit in the last place. *)
Lemma round_trip_floats (fmt : float_format)
    (c a0 a1 b0 b1 s1 w q1 sc p1 y s2 q2 p2 z : spec_float) :
  valid_binary (prec fmt) (emax fmt) c = true ->
  valid_binary (prec fmt) (emax fmt) a0 = true ->
  valid_binary (prec fmt) (emax fmt) a1 = true ->
  valid_binary (prec fmt) (emax fmt) b0 = true ->
  valid_binary (prec fmt) (emax fmt) b1 = true ->
  s1 = SFsub (prec fmt) (emax fmt) c a0 ->
  w = SFsub (prec fmt) (emax fmt) a1 a0 ->
  q1 = SFdiv (prec fmt) (emax fmt) s1 w ->
  sc = SFsub (prec fmt) (emax fmt) b1 b0 ->
  p1 = SFmul (prec fmt) (emax fmt) q1 sc ->
  y = SFadd (prec fmt) (emax fmt) p1 b0 ->
  s2 = SFsub (prec fmt) (emax fmt) (cast_float fmt (SFloat y)) b0 ->
  q2 = SFdiv (prec fmt) (emax fmt) s2 sc ->
  p2 = SFmul (prec fmt) (emax fmt) q2 w ->
  z = SFadd (prec fmt) (emax fmt) p2 a0 ->
  is_finite z = true ->
  exists x va0 vb0 vw vsc vz,
    float_value c = Some x /\
    float_value a0 = Some va0 /\
    float_value b0 = Some vb0 /\
    float_value w = Some vw /\
    float_value sc = Some vsc /\
    float_value z = Some vz /\
    ~ (vw == 0)%Q /\ ~ (vsc == 0)%Q /\
    (Qabs (vz - x)
     <= 10 * (unit_roundoff (prec fmt)
              * (Qabs x + Qabs va0 + Qabs (vw / vsc) * Qabs vb0))
        + 4 * (half_step (prec fmt) (emax fmt)
               * (1 + Qabs vw + Qabs (vw / vsc))))%Q.
Proof.
  intros Vc Va0 Va1 Vb0 Vb1 Es1 Ew Eq1 Esc Ep1 Ey Es2 Eq2 Ep2 Ez Fz.
  pose proof (prec_positive fmt) as HP.
  pose proof (prec_below_emax fmt) as HE.
  (* a finite result leaves no room for an infinity or a NaN on the way *)
  pose proof Fz as F. rewrite Ez in F.
  apply SFadd_finite_inv in F. destruct F as [Fp2 Fa0].
  pose proof Fp2 as F. rewrite Ep2 in F.
  apply SFmul_finite_inv in F. destruct F as [Fq2 Fw].
  pose proof Fq2 as F. rewrite Eq2 in F.
  apply SFdiv_finite_inv in F. destruct F as [Fs2 Nsc].
  pose proof Fs2 as F. rewrite Es2 in F.
  apply SFsub_finite_inv in F. destruct F as [Fy Fb0].
  apply cast_float_finite_inv in Fy.
  pose proof Fy as F. rewrite Ey in F.
  apply SFadd_finite_inv in F. destruct F as [Fp1 _].
  pose proof Fp1 as F. rewrite Ep1 in F.
  apply SFmul_finite_inv in F. destruct F as [Fq1 Fsc].
  pose proof Fq1 as F. rewrite Eq1 in F.
  apply SFdiv_finite_inv in F. destruct F as [Fs1 Nw].
  pose proof Fs1 as F. rewrite Es1 in F.
  apply SFsub_finite_inv in F. destruct F as [Fc _].
  pose proof Fw as F. rewrite Ew in F.
  apply SFsub_finite_inv in F. destruct F as [Fa1 _].
  pose proof Fsc as F. rewrite Esc in F.
  apply SFsub_finite_inv in F. destruct F as [Fb1 _].
  (* the values *)
  destruct (finite_float_value c Fc) as [x Hx].
  destruct (finite_float_value a0 Fa0) as [va0 Ha0].
  destruct (finite_float_value a1 Fa1) as [va1 Ha1].
  destruct (finite_float_value b0 Fb0) as [vb0 Hb0].
  destruct (finite_float_value b1 Fb1) as [vb1 Hb1].
  (* the first call *)
  pose proof (SFsub_spec _ _ HP HE c a0 x va0 Vc Va0 Hx Ha0) as R.
  rewrite <- Es1 in R.
  destruct (finite_rounding fmt _ _ R Fs1) as (vs1 & Hs1 & Vs1 & E1).
  clear R.
  pose proof (SFsub_spec _ _ HP HE a1 a0 va1 va0 Va1 Va0 Ha1 Ha0) as R.
  rewrite <- Ew in R.
  destruct (finite_rounding fmt _ _ R Fw) as (vw & Hw & Vw & _).
  clear R.
  pose proof (float_value_nonzero w vw Nw Hw) as Hwne.
  pose proof (SFdiv_spec _ _ HP HE s1 w vs1 vw Hs1 Hw Hwne) as R.
  rewrite <- Eq1 in R.
  destruct (finite_rounding fmt _ _ R Fq1) as (vq1 & Hq1 & Vq1 & E2).
  clear R.
  pose proof (SFsub_spec _ _ HP HE b1 b0 vb1 vb0 Vb1 Vb0 Hb1 Hb0) as R.
  rewrite <- Esc in R.
  destruct (finite_rounding fmt _ _ R Fsc) as (vsc & Hsc & Vsc & _).
  clear R.
  pose proof (float_value_nonzero sc vsc Nsc Hsc) as Hscne.
  pose proof (SFmul_spec _ _ HP HE q1 sc vq1 vsc Vq1 Vsc Hq1 Hsc) as R.
  rewrite <- Ep1 in R.
  destruct (finite_rounding fmt _ _ R Fp1) as (vp1 & Hp1 & Vp1 & E3).
  clear R.
  pose proof (SFadd_spec _ _ HP HE p1 b0 vp1 vb0 Vp1 Vb0 Hp1 Hb0) as R.
  rewrite <- Ey in R.
  destruct (finite_rounding fmt _ _ R Fy) as (vy & Hy & Vy & E4).
  clear R.
  (* the inverse call: its cast changes nothing *)
  rewrite (cast_float_valid fmt y Vy) in Es2.
  pose proof (SFsub_spec _ _ HP HE y b0 vy vb0 Vy Vb0 Hy Hb0) as R.
  rewrite <- Es2 in R.
  destruct (finite_rounding fmt _ _ R Fs2) as (vs2 & Hs2 & Vs2 & E5).
  clear R.
  pose proof (SFdiv_spec _ _ HP HE s2 sc vs2 vsc Hs2 Hsc Hscne) as R.
  rewrite <- Eq2 in R.
  destruct (finite_rounding fmt _ _ R Fq2) as (vq2 & Hq2 & Vq2 & E6).
  clear R.
  pose proof (SFmul_spec _ _ HP HE q2 w vq2 vw Vq2 Vw Hq2 Hw) as R.
  rewrite <- Ep2 in R.
  destruct (finite_rounding fmt _ _ R Fp2) as (vp2 & Hp2 & Vp2 & E7).
  clear R.
  pose proof (SFadd_spec _ _ HP HE p2 a0 vp2 va0 Vp2 Va0 Hp2 Ha0) as R.
  rewrite <- Ez in R.
  destruct (finite_rounding fmt _ _ R Fz) as (vz & Hz & _ & E8).
  clear R.
  exists x, va0, vb0, vw, vsc, vz.
  repeat (split; [assumption |]).
  destruct (unit_roundoff_small fmt) as [Hu0 Hu].
  pose proof (half_step_pos (prec fmt) (emax fmt)) as Heta.
  exact (eight_roundings _ _ x va0 vb0 vw vsc vs1 vq1 vp1 vy vs2 vq2 vp2 vz
           Hu0 Hu (Qlt_le_weak _ _ Heta) Hwne Hscne E1 E2 E3 E4 E5 E6 E7 E8).
Qed.

(** Between two zero-based ranges [[0, a]] and [[0, b]] of moderate bounds,
    an element no larger than [a] goes through both calls without
    overflow. *)
Lemma round_trip_zero_based (fmt : float_format)
    (c a0 a1 b0 b1 s1 w q1 sc p1 y s2 q2 p2 z : spec_float) (x a b : Q) :
  valid_binary (prec fmt) (emax fmt) c = true ->
  valid_binary (prec fmt) (emax fmt) a1 = true ->
  valid_binary (prec fmt) (emax fmt) b1 = true ->
  s1 = SFsub (prec fmt) (emax fmt) c a0 ->
  w = SFsub (prec fmt) (emax fmt) a1 a0 ->
  q1 = SFdiv (prec fmt) (emax fmt) s1 w ->
  sc = SFsub (prec fmt) (emax fmt) b1 b0 ->
  p1 = SFmul (prec fmt) (emax fmt) q1 sc ->
  y = SFadd (prec fmt) (emax fmt) p1 b0 ->
  s2 = SFsub (prec fmt) (emax fmt) (cast_float fmt (SFloat y)) b0 ->
  q2 = SFdiv (prec fmt) (emax fmt) s2 sc ->
  p2 = SFmul (prec fmt) (emax fmt) q2 w ->
  z = SFadd (prec fmt) (emax fmt) p2 a0 ->
  float_value a0 = Some 0%Q -> float_value b0 = Some 0%Q ->
  float_value c = Some x -> float_value a1 = Some a ->
  float_value b1 = Some b ->
  ~ (a == 0)%Q -> ~ (b == 0)%Q ->
  (Qabs x <= Qabs a)%Q ->
  (Qabs a <= 2 ^ (emax fmt - 2))%Q -> (Qabs b <= 2 ^ (emax fmt - 2))%Q ->
  is_finite z = true.
Proof.
  intros Vc Va1 Vb1 Es1 Ew Eq1 Esc Ep1 Ey Es2 Eq2 Ep2 Ez
    Ha0 Hb0 Hx Ha Hb Hane Hbne Hxa HaG HbG.
  pose proof (prec_positive fmt) as HP.
  pose proof (prec_below_emax fmt) as HE.
  destruct (zero_value_inv a0 Ha0) as [sa ->].
  destruct (zero_value_inv b0 Hb0) as [sb ->].
  destruct (unit_roundoff_small fmt) as [Hu0 Hu].
  pose proof (half_step_pos (prec fmt) (emax fmt)) as Heta.
  pose proof (half_step_tiny fmt) as Htiny.
  destruct (range_quarter fmt) as [HG Hdouble].
  pose proof (float_value_lower fmt b1 b Vb1 Hb Hbne) as Hblow.
  destruct (zero_based_magnitudes _ _ _ x a b Hu0 Hu (Qlt_le_weak _ _ Heta)
              Htiny HG Hane Hbne Hblow Hxa HaG HbG) as [M0 M].
  rewrite Hdouble in M0.
  (* the operands of the first call *)
  destruct (SFsub_zero_any (prec fmt) (emax fmt) c sa) as (Hs1 & _ & _).
  rewrite <- Es1, Hx in Hs1.
  destruct (SFsub_zero_any (prec fmt) (emax fmt) a1 sa) as (Hw & _ & Vw).
  rewrite <- Ew, Ha in Hw. rewrite <- Ew in Vw. specialize (Vw Va1).
  destruct (SFsub_zero_any (prec fmt) (emax fmt) b1 sb) as (Hsc & _ & Vsc).
  rewrite <- Esc, Hb in Hsc. rewrite <- Esc in Vsc. specialize (Vsc Vb1).
  (* the division *)
  pose proof (SFdiv_spec _ _ HP HE s1 w x a Hs1 Hw Hane) as R.
  rewrite <- Eq1 in R.
  pose proof (rounds_to_in_range _ _ _ _ R M0) as Fq1.
  destruct (finite_rounding fmt _ _ R Fq1) as (vq1 & Hq1 & Vq1 & E2).
  clear R. destruct (M vq1 E2) as [M1 M']. clear M.
  rewrite Hdouble in M1.
  (* the multiplication *)
  pose proof (SFmul_spec _ _ HP HE q1 sc vq1 b Vq1 Vsc Hq1 Hsc) as R.
  rewrite <- Ep1 in R.
  pose proof (rounds_to_in_range _ _ _ _ R M1) as Fp1.
  destruct (finite_rounding fmt _ _ R Fp1) as (vp1 & Hp1 & Vp1 & E3).
  clear R. destruct (M' vp1 E3) as [M2 M'']. clear M'.
  rewrite Hdouble in M2.
  (* the result of the first call, and the cast of the inverse call *)
  destruct (SFadd_zero_any (prec fmt) (emax fmt) p1 sb) as (Hy & _ & Vy).
  rewrite <- Ey, Hp1 in Hy. rewrite <- Ey in Vy. specialize (Vy Vp1).
  rewrite (cast_float_valid fmt y Vy) in Es2.
  destruct (SFsub_zero_any (prec fmt) (emax fmt) y sb) as (Hs2 & _ & _).
  rewrite <- Es2, Hy in Hs2.
  (* the inverse call *)
  pose proof (SFdiv_spec _ _ HP HE s2 sc vp1 b Hs2 Hsc Hbne) as R.
  rewrite <- Eq2 in R.
  pose proof (rounds_to_in_range _ _ _ _ R M2) as Fq2.
  destruct (finite_rounding fmt _ _ R Fq2) as (vq2 & Hq2 & Vq2 & E6).
  clear R. pose proof (M'' vq2 E6) as M3. clear M''.
  rewrite Hdouble in M3.
  pose proof (SFmul_spec _ _ HP HE q2 w vq2 a Vq2 Vw Hq2 Hw) as R.
  rewrite <- Ep2 in R.
  pose proof (rounds_to_in_range _ _ _ _ R M3) as Fp2.
  destruct (SFadd_zero_any (prec fmt) (emax fmt) p2 sa) as (_ & Hz & _).
  rewrite Ez, Hz. exact Fp2.
Qed.

(** C2, as amended. In every floating-point dtype, for every images tensor
    and every two ranges [A] and [B], [transform_value_range] from [A] to
    [B] followed by [transform_value_range] from [B] to [A] returns a tensor
    of the shape of the images, and every element [z] of it that is finite
    comes from a finite element [x] and from ranges of finite bounds and
    non-zero widths [w = A.max - A.min] and [sc = B.max - B.min] (as
    computed in the dtype), and lies within

    [10 * 2^-prec * (|x| + |A.min| + |w / sc| * |B.min|)
     + 4 * 2^(emin - 1) * (1 + |w| + |w / sc|)]

    of [x]: the eight roundings of the two calls, relative to the element
    and to the lower bounds of the two ranges, and the underflow of the
    dtype.  Elements that overflow on the way come back infinite or NaN.
    None does between two zero-based ranges [[0, a]] and [[0, b]] with
    [a] and [b] non-zero and at most [2^(emax - 2)] in magnitude: every
    element no larger than [a] in magnitude comes back finite. *)
Theorem round_trip_within_tolerance
    (fmt : float_format) (images : Tensor scalar)
    (a_min a_max b_min b_max : scalar) :
  exists out,
    result (round_trip (ieee fmt) SFloat images
              [a_min; a_max] [b_min; b_max]) = inr out /\
    shape out = shape images /\
    Forall2
      (fun v z =>
         (forall x a b,
             float_value (cast_float fmt a_min) = Some 0%Q ->
             float_value (cast_float fmt b_min) = Some 0%Q ->
             float_value (cast_float fmt v) = Some x ->
             float_value (cast_float fmt a_max) = Some a ->
             float_value (cast_float fmt b_max) = Some b ->
             ~ (a == 0)%Q -> ~ (b == 0)%Q ->
             (Qabs x <= Qabs a)%Q ->
             (Qabs a <= 2 ^ (emax fmt - 2))%Q ->
             (Qabs b <= 2 ^ (emax fmt - 2))%Q ->
             is_finite z = true) /\
         (is_finite z = true ->
          exists x a0 b0 w sc q,
            float_value (cast_float fmt v) = Some x /\
            float_value (cast_float fmt a_min) = Some a0 /\
            float_value (cast_float fmt b_min) = Some b0 /\
            float_value (SFsub (prec fmt) (emax fmt) (cast_float fmt a_max)
                           (cast_float fmt a_min)) = Some w /\
            float_value (SFsub (prec fmt) (emax fmt) (cast_float fmt b_max)
                           (cast_float fmt b_min)) = Some sc /\
            float_value z = Some q /\
            ~ (w == 0)%Q /\ ~ (sc == 0)%Q /\
            (Qabs (q - x)
             <= 10 * (unit_roundoff (prec fmt)
                      * (Qabs x + Qabs a0 + Qabs (w / sc) * Qabs b0))
                + 4 * (half_step (prec fmt) (emax fmt)
                       * (1 + Qabs w + Qabs (w / sc))))%Q))
      (data images) (data out).
Proof.
  unfold round_trip.
  erewrite result_bind_inr by apply transform_value_range_result.
  rewrite transform_value_range_result. unfold tmap.
  eexists. split; [reflexivity |]. cbn [shape data].
  split; [reflexivity |].
  rewrite !map_map.
  induction (data images) as [| v l IH]; cbn [map]; constructor;
    [| exact IH].
  unfold remapped. cbn [add mul truediv sub cast ieee].
  split.
  - intros x a b Ha0 Hb0 Hx Ha Hb Hane Hbne Hxa HaG HbG.
    exact (round_trip_zero_based fmt _ _ _ _ _ _ _ _ _ _ _ _ _ _ _ x a b
             (cast_float_in_format fmt v)
             (cast_float_in_format fmt a_max) (cast_float_in_format fmt b_max)
             eq_refl eq_refl eq_refl eq_refl eq_refl eq_refl eq_refl eq_refl
             eq_refl eq_refl Ha0 Hb0 Hx Ha Hb Hane Hbne Hxa HaG HbG).
  - intros Fz.
    exact (round_trip_floats fmt _ _ _ _ _ _ _ _ _ _ _ _ _ _ _
           (cast_float_in_format fmt v)
           (cast_float_in_format fmt a_min) (cast_float_in_format fmt a_max)
           (cast_float_in_format fmt b_min) (cast_float_in_format fmt b_max)
           eq_refl eq_refl eq_refl eq_refl eq_refl eq_refl eq_refl eq_refl
           eq_refl eq_refl Fz).
Qed.

(** C2, as stated, fails in floating point. In float32 the ranges
    [A = [0, 1]] and [B = [-3 * 2^126, 3 * 2^126]] have finite, distinct
    bounds, yet the width of [B] overflows: the element 0.5 goes to plus
    infinity, and the way back returns NaN. *)
Lemma round_trip_float32_overflow :
  SFeqb (cast_float Float32 (SInt 1)) (cast_float Float32 (SInt 0)) = false /\
  exact_value (cast_float Float32 (SFloat (S754_finite true 3 126)))
  = Some (inject_Z (- (3 * 2 ^ 126))) /\
  exact_value (cast_float Float32 (SFloat (S754_finite false 3 126)))
  = Some (inject_Z (3 * 2 ^ 126)) /\
  SFeqb (cast_float Float32 (SFloat (S754_finite false 3 126)))
        (cast_float Float32 (SFloat (S754_finite true 3 126))) = false /\
  result (transform_value_range float32
            {| shape := [1%nat]; data := [SFloat (S754_finite false 1 (-1))] |}
            [SInt 0; SInt 1]
            [SFloat (S754_finite true 3 126); SFloat (S754_finite false 3 126)])
  = inr {| shape := [1%nat]; data := [S754_infinity false] |} /\
  result (round_trip float32 SFloat
            {| shape := [1%nat]; data := [SFloat (S754_finite false 1 (-1))] |}
            [SInt 0; SInt 1]
            [SFloat (S754_finite true 3 126); SFloat (S754_finite false 3 126)])
  = inr {| shape := [1%nat]; data := [S754_nan] |}.
Proof. vm_compute. repeat split. Qed.

(** Without any overflow the round trip can still lose the element. In
    float32, with [A = [0, 1]] and [B = [2^30, 2^30 + 128]], the element 0.3
    is mapped to [2^30]: the 38.4 it adds is below the spacing of the floats
    there. It comes back as 0. The tolerance of the theorem allows it: the
    lower bound of [B], scaled by [|w / sc| = 1 / 128], weighs [2^23]. *)
Example round_trip_absorption :
  result (transform_value_range float32
            {| shape := [1%nat];
               data := [SFloat (S754_finite false 10066330 (-25))] |}
            [SInt 0; SInt 1] [SInt 1073741824; SInt 1073741952])
  = inr {| shape := [1%nat]; data := [S754_finite false 8388608 7] |} /\
  result (round_trip float32 SFloat
            {| shape := [1%nat];
               data := [SFloat (S754_finite false 10066330 (-25))] |}
            [SInt 0; SInt 1] [SInt 1073741824; SInt 1073741952])
  = inr {| shape := [1%nat]; data := [S754_zero false] |}.
Proof. vm_compute. split; reflexivity. Qed.

(** X1. The round trip of the docstring, [0, 255] to [0, 1] and back, returns
    each of the 256 values of an 8-bit image bit for bit, in every
    floating-point dtype. *)
Lemma round_trip_byte_values (fmt : float_format) :
  result (round_trip (ieee fmt) SFloat byte_values
            [SInt 0; SInt 255] [SInt 0; SInt 1])
  = inr (tmap (cast_float fmt) byte_values).
Proof. destruct fmt; vm_compute; reflexivity. Qed.

(** ** The same range on both sides *)

Lemma cast_zero (fmt : float_format) :
  cast_float fmt (SInt 0) = S754_zero false.
Proof. reflexivity. Qed.

Lemma cast_255 (fmt : float_format) :
  exists m e,
    cast_float fmt (SInt 255) = S754_finite false m e /\
    (1 * inject_Z (Z.pos m) * 2 ^ e == 255)%Q.
Proof.
  destruct fmt; eexists; eexists; (split; [vm_compute; reflexivity |]);
    vm_compute; reflexivity.
Qed.

(** One element of [transform_value_range(x, [0, 255], [0, 255])]. *)
Lemma same_range_element (fmt : float_format) (v : scalar) :
  let c := cast_float fmt v in
  let r := remapped (ieee fmt) (SInt 0) (SInt 255) (SInt 0) (SInt 255) v in
  (is_finite c = false -> is_finite r = false) /\
  (forall x, float_value c = Some x ->
     ((Qabs x <= 2 ^ (emax fmt - 2))%Q -> is_finite r = true) /\
     (forall q, float_value r = Some q ->
        (Qabs (q - x)
         <= 3 * (unit_roundoff (prec fmt) * Qabs x)
            + 512 * half_step (prec fmt) (emax fmt))%Q)).
Proof.
  intros c r. subst r. unfold remapped.
  cbn [add mul truediv sub cast ieee]. rewrite cast_zero, !SFsub_zero_r.
  fold c.
  destruct (cast_255 fmt) as (mk & ek & Hk & Hkv). rewrite Hk.
  set (k := S754_finite false mk ek).
  set (kv := (1 * inject_Z (Z.pos mk) * 2 ^ ek)%Q) in *.
  assert (Hkval : float_value k = Some kv) by reflexivity.
  assert (Hkne : ~ (kv == 0)%Q) by (rewrite Hkv; discriminate).
  assert (Hkvalid : valid_binary (prec fmt) (emax fmt) k = true).
  { unfold k. rewrite <- Hk. apply cast_float_in_format. }
  set (q0 := SFdiv (prec fmt) (emax fmt) c k).
  set (p0 := SFmul (prec fmt) (emax fmt) q0 k).
  destruct (SFadd_zero_r (prec fmt) (emax fmt) p0) as [Hval Hfin].
  rewrite Hval, Hfin.
  destruct (unit_roundoff_small fmt) as [Hu0 Hu].
  pose proof (half_step_pos (prec fmt) (emax fmt)) as Heta.
  pose proof (half_step_small fmt) as Hsmall.
  split.
  - intros Hc. destruct (is_finite p0) eqn:Hp; [| reflexivity].
    apply SFmul_finite_inv in Hp. destruct Hp as [Hq _].
    apply SFdiv_finite_inv in Hq. destruct Hq as [Hc' _]. congruence.
  - intros x Hx.
    pose proof (SFdiv_spec (prec fmt) (emax fmt) (prec_positive fmt)
                  (prec_below_emax fmt) c k x kv Hx Hkval Hkne) as Rq.
    fold q0 in Rq.
    assert (Hstep : is_finite q0 = true ->
              exists qv, float_value q0 = Some qv /\
                rounds_to (prec fmt) (emax fmt) (qv * kv) p0 /\
                (Qabs (qv - x / kv)
                 <= unit_roundoff (prec fmt) * Qabs qv
                    + half_step (prec fmt) (emax fmt))%Q).
    { intros Hq.
      destruct (finite_rounding fmt _ _ Rq Hq) as (qv & Hqv & Vq & E1).
      exists qv. split; [exact Hqv |]. split; [| exact E1].
      exact (SFmul_spec (prec fmt) (emax fmt) (prec_positive fmt)
               (prec_below_emax fmt) q0 k qv kv Vq Hkvalid Hqv Hkval). }
    split.
    + (* no overflow below a quarter of the range *)
      intros Hsize.
      assert (Hhalf : (2 ^ (emax fmt - 2) == (1 # 2) * 2 ^ (emax fmt - 1))%Q).
      { replace (emax fmt - 2)%Z with (emax fmt - 1 - 1)%Z by lia.
        apply pow2_half. }
      rewrite Hhalf in Hsize.
      pose proof (pow2_pos (emax fmt - 1)) as Hpos.
      pose proof (Qabs_nonneg x) as Hx0.
      assert (Hq : is_finite q0 = true).
      { apply (rounds_to_in_range (prec fmt) (emax fmt) _ _ Rq).
        unfold Qdiv. rewrite Qabs_Qmult, Qabs_Qinv, Hkv.
        change (/ Qabs 255)%Q with (1 # 255)%Q. lra. }
      destruct (Hstep Hq) as (qv & Hqv & Rp & E1).
      apply (rounds_to_in_range (prec fmt) (emax fmt) _ _ Rp).
      apply (scale_error kv) in E1; [| exact Hu0].
      assert (Hxk : (kv * (x / kv) == x)%Q) by (field; exact Hkne).
      rewrite Hxk in E1. rewrite (Qmult_comm qv kv).
      assert (Htri : (Qabs (kv * qv)
                      <= Qabs x + (unit_roundoff (prec fmt) * Qabs (kv * qv)
                                   + Qabs kv * half_step (prec fmt) (emax fmt)))%Q).
      { assert (Ha : (kv * qv == x + (kv * qv - x))%Q) by ring.
        rewrite Ha at 1. eapply Qle_trans; [apply Qabs_triangle |].
        apply Qplus_le_r. exact E1. }
      assert (Hs : (unit_roundoff (prec fmt) * Qabs (kv * qv)
                    <= (1 # 256) * Qabs (kv * qv))%Q).
      { apply Qmult_le_compat_r; [exact Hu | apply Qabs_nonneg]. }
      assert (Hak : (Qabs kv == 255)%Q) by (rewrite Hkv; reflexivity).
      rewrite Hak in Htri. lra.
    + intros q Hq.
      assert (Hp : is_finite p0 = true) by (apply float_value_finite in Hq; exact Hq).
      pose proof Hp as Hp'.
      apply SFmul_finite_inv in Hp'. destruct Hp' as [Hq0 _].
      destruct (Hstep Hq0) as (qv & Hqv & Rp & E1).
      pose proof (rounds_to_error _ _ _ _ _ Rp Hq) as E2.
      assert (Hkpos : (0 < kv)%Q) by (rewrite Hkv; reflexivity).
      pose proof (two_roundings _ _ kv x qv q Hu0 Hu
                    (Qlt_le_weak _ _ Heta) Hkpos E1 E2) as H.
      rewrite Hkv in H.
      assert (Hc : (2 * ((255 + 1) * half_step (prec fmt) (emax fmt))
                    == 512 * half_step (prec fmt) (emax fmt))%Q) by ring.
      rewrite Hc in H. exact H.
Qed.

(** C7, as amended. In every floating-point dtype and for every images
    tensor, [transform_value_range(x, [0, 255], [0, 255])] returns a tensor
    of the shape of [x] in which

    - an element that the cast of line 47 makes infinite or NaN stays
      infinite or NaN;
    - an element whose cast is at most [2^(emax - 2)] in magnitude, a
      quarter of the range of the dtype, comes back finite;
    - every element that comes back finite is within
      [3 * 2^-prec * |x| + 512 * 2^(emin - 1)] of its cast [x]: three unit
      roundoffs, relative to [x], and 256 times the smallest positive number
      of the dtype.

    The 256 values of an 8-bit image come back as their casts, bit for
    bit. *)
Theorem same_range_within_tolerance (fmt : float_format) :
  (forall images : Tensor scalar,
      exists out,
        result (transform_value_range (ieee fmt) images
                  [SInt 0; SInt 255] [SInt 0; SInt 255]) = inr out /\
        shape out = shape images /\
        Forall2
          (fun v r =>
             (is_finite (cast_float fmt v) = false -> is_finite r = false) /\
             (forall x, float_value (cast_float fmt v) = Some x ->
                ((Qabs x <= 2 ^ (emax fmt - 2))%Q -> is_finite r = true) /\
                (forall q, float_value r = Some q ->
                   (Qabs (q - x)
                    <= 3 * (unit_roundoff (prec fmt) * Qabs x)
                       + 512 * half_step (prec fmt) (emax fmt))%Q)))
          (data images) (data out)) /\
  result (transform_value_range (ieee fmt) byte_values
            [SInt 0; SInt 255] [SInt 0; SInt 255])
  = inr (tmap (cast_float fmt) byte_values).
Proof.
  split.
  - intros images. rewrite transform_value_range_result. unfold tmap.
    eexists. split; [reflexivity |]. cbn [shape data].
    split; [reflexivity |].
    induction (data images) as [| v l IH]; cbn [map]; constructor;
      [exact (same_range_element fmt v) | exact IH].
  - destruct fmt; vm_compute; reflexivity.
Qed.

(** C7, as stated, fails in float16. The largest finite value, 65504, is an
    element the dtype holds exactly; divided by 255 it rounds up to 257, and
    257 * 255 = 65535 is past the largest finite value: the element comes
    back as plus infinity. *)
Lemma same_range_float16_overflow :
  exact_value (cast_float Float16 (SInt 65504)) = Some 65504%Q /\
  result (transform_value_range (ieee Float16)
            {| shape := [1%nat]; data := [SInt 65504] |}
            [SInt 0; SInt 255] [SInt 0; SInt 255])
  = inr {| shape := [1%nat]; data := [S754_infinity false] |}.
Proof. vm_compute. split; reflexivity. Qed.

(** Below the overflow the tolerance is needed too: in float32, the default
    dtype, 1023 comes back one unit in the last place lower, as
    [1023 - 2^-14]. *)
Example same_range_float32_one_ulp :
  cast_float Float32 (SInt 1023) = S754_finite false 16760832 (-14) /\
  result (transform_value_range float32
            {| shape := [1%nat]; data := [SInt 1023] |}
            [SInt 0; SInt 255] [SInt 0; SInt 255])
  = inr {| shape := [1%nat]; data := [S754_finite false 16760831 (-14)] |}.
Proof. vm_compute. split; reflexivity. Qed.

(** ** transform *)

Lemma dims_compatible_length (a b : list (option nat)) :
  dims_compatible a b = true -> List.length a = List.length b.
Proof.
  revert b. induction a as [| x a IH]; intros [| y b]; simpl;
    try discriminate; auto.
  intros H. apply andb_prop in H. destruct H as [_ H].
  f_equal. apply IH, H.
Qed.

(** X2. An [output_shape] given as a list or array passes the check exactly
    when its shape is [(2,)]. *)
Lemma array_like_compatible (a : Tensor Z) :
  is_compatible_with (get_shape (convert_to_tensor (ArrayLike a)))
    (Dims [Some 2%nat]) = true <-> shape a = [2%nat].
Proof.
  unfold get_shape, convert_to_tensor, fully_defined; cbn.
  destruct (shape a) as [| n [| m l]]; cbn.
  - split; discriminate.
  - rewrite andb_true_r, Nat.eqb_eq. split; [intros -> | intros [= ->]]; auto.
  - rewrite andb_false_r. split; discriminate.
Qed.

Lemma constant_folding_sound : static_value_sound constant_folding.
Proof. intros t v [= <-]. reflexivity. Qed.

Lemma no_static_value_sound : static_value_sound no_static_value.
Proof. intros t v H. discriminate H. Qed.

Lemma blank_operator_shape : op_shape_contract blank_operator.
Proof.
  intros a r n h w c oh ow. unfold blank_operator.
  destruct (negb (known_fill_mode (arg_fill_mode a))); [discriminate |].
  destruct (negb (known_interpolation (arg_interpolation a)));
    [discriminate |].
  intros H Hi Ho. rewrite Hi, Ho in H. injection H as <-.
  cbn [value shape]. rewrite !Nat2Z.id. reflexivity.
Qed.

Section TransformFacts.

Variable ImageProjectiveTransformV3 : op_args -> exn + TFTensor scalar.
Variable executing_eagerly : bool.
Variable get_static_value : TFTensor Z -> option (Tensor Z).
Variable tensor_str : TFTensor Z -> string.


(** The two ways out of the wrapper. *)
Lemma transform_rejects images transforms fill_mode fill_value interpolation
    output_shape name :
  is_compatible_with (get_shape (resolve_output_shape executing_eagerly get_static_value
                images output_shape))
    (Dims [Some 2%nat]) = false ->
  transform ImageProjectiveTransformV3 executing_eagerly get_static_value
    tensor_str images transforms fill_mode fill_value interpolation
    output_shape name
  = ([], inl (ValueError
                (output_shape_error
                   ++ tensor_str (resolve_output_shape executing_eagerly get_static_value
                images output_shape))%string)).
Proof.
  intros H. unfold transform. rewrite H. reflexivity.
Qed.

Lemma transform_dispatches images transforms fill_mode fill_value interpolation
    output_shape name :
  is_compatible_with (get_shape (resolve_output_shape executing_eagerly get_static_value
                images output_shape))
    (Dims [Some 2%nat]) = true ->
  transform ImageProjectiveTransformV3 executing_eagerly get_static_value
    tensor_str images transforms fill_mode fill_value interpolation
    output_shape name
  = invoke ImageProjectiveTransformV3 (py_or name "transform")
      {| arg_images := images;
         arg_output_shape :=
           resolve_output_shape executing_eagerly get_static_value
             images output_shape;
         arg_fill_value := cast_float Float32 fill_value;
         arg_transforms := transforms;
         arg_fill_mode := upper fill_mode;
         arg_interpolation := upper interpolation |}.
Proof.
  intros H. unfold transform. rewrite H. reflexivity.
Qed.

(** The default [output_shape] of a 4-D batch: its value is (height, width)
    and it passes the check, in eager and in graph mode, whether or not the
    static value is available. *)
Lemma default_output_shape images n h w c :
  static_value_sound get_static_value ->
  well_shaped images ->
  shape (value images) = [n; h; w; c] ->
  value (resolve_output_shape executing_eagerly get_static_value
                images None)
  = {| shape := [2%nat]; data := [Z.of_nat h; Z.of_nat w] |} /\
  is_compatible_with (get_shape (resolve_output_shape executing_eagerly get_static_value
                images None))
    (Dims [Some 2%nat]) = true.
Proof.
  intros Hsound Hwf Hshape.
  assert (Hv : value (vector_slice 1 3 (tf_shape executing_eagerly images))
               = {| shape := [2%nat]; data := [Z.of_nat h; Z.of_nat w] |}).
  { unfold vector_slice, tf_shape; cbn [value data shape].
    rewrite Hshape. reflexivity. }
  unfold resolve_output_shape.
  destruct executing_eagerly eqn:He; cbn [negb].
  - cbn [convert_to_tensor]. split; [exact Hv |].
    unfold get_shape, vector_slice, tf_shape; cbn [static_shape].
    rewrite Hshape. reflexivity.
  - destruct (get_static_value _) as [v |] eqn:Hg.
    + apply Hsound in Hg. subst v. rewrite Hv.
      cbn [convert_to_tensor value]. split; reflexivity.
    + cbn [convert_to_tensor]. split; [exact Hv |].
      unfold get_shape, vector_slice, tf_shape; cbn [static_shape].
      unfold well_shaped, fully_defined in Hwf. rewrite Hshape in Hwf.
      destruct (static_shape images) as [| ds]; [reflexivity |].
      cbn in Hwf. apply dims_compatible_length in Hwf.
      rewrite Hwf. reflexivity.
Qed.

End TransformFacts.

(** C3, as amended. When the shape known for the converted [output_shape] is
    not compatible with [(2,)] (as for every list or array whose shape is
    not [(2,)], a 3-element vector among them), [transform] raises a
    [ValueError] whose message ends with the rendering of that
    [output_shape], and the operator is not invoked. *)
Theorem transform_rejects_output_shape
    (ImageProjectiveTransformV3 : op_args -> exn + TFTensor scalar)
    (executing_eagerly : bool)
    (get_static_value : TFTensor Z -> option (Tensor Z))
    (tensor_str : TFTensor Z -> string)
    (images transforms : TFTensor scalar) (fill_mode : string)
    (fill_value : scalar) (interpolation : string)
    (output_shape : shape_arg) (name : option string) :
  is_compatible_with (get_shape (convert_to_tensor output_shape))
    (Dims [Some 2%nat]) = false ->
  transform ImageProjectiveTransformV3 executing_eagerly get_static_value
    tensor_str images transforms fill_mode fill_value interpolation
    (Some output_shape) name
  = ([], inl (ValueError
                (output_shape_error
                   ++ tensor_str (convert_to_tensor output_shape))%string)).
Proof.
  intros H.
  apply (transform_rejects ImageProjectiveTransformV3 executing_eagerly
           get_static_value tensor_str images transforms fill_mode
           fill_value interpolation (Some output_shape) name H).
Qed.

Lemma transform_rejects_output_shape_witness :
  transform blank_operator true constant_folding tensor_repr
    (zeros [2; 10; 10; 3]%nat) identity_transform "reflect" (SInt 0)
    "bilinear"
    (Some (ArrayLike {| shape := [3%nat]; data := [10; 10; 3]%Z |})) None
  = ([], inl (ValueError
                (output_shape_error
                   ++ "tf.Tensor([10 10 3], shape=(3,), dtype=int32)")%string)).
Proof.
  apply (transform_rejects_output_shape blank_operator true constant_folding
           tensor_repr (zeros [2; 10; 10; 3]%nat) identity_transform
           "reflect" (SInt 0) "bilinear"
           (ArrayLike {| shape := [3%nat]; data := [10; 10; 3]%Z |}) None).
  reflexivity.
Defined.

(** C3, as stated, fails for an [output_shape] tensor whose length is not
    known statically. In graph mode a vector of static shape [[None]] that
    holds three entries passes [is_compatible_with([2])]: the wrapper raises
    nothing, the operator is invoked with the three-entry vector, and the
    error is the operator's own. *)
Lemma transform_accepts_unknown_length :
  shape (value (convert_to_tensor (TensorArg unknown_length_vector)))
  = [3%nat] /\
  transform blank_operator false no_static_value tensor_repr
    (zeros [2; 10; 10; 3]%nat) identity_transform "reflect" (SInt 0)
    "bilinear" (Some (TensorArg unknown_length_vector)) None
  = ([{| call_scope := "transform";
         call_args :=
           {| arg_images := zeros [2; 10; 10; 3]%nat;
              arg_output_shape := unknown_length_vector;
              arg_fill_value := S754_zero false;
              arg_transforms := identity_transform;
              arg_fill_mode := "REFLECT";
              arg_interpolation := "BILINEAR" |} |}],
     inl (InvalidArgumentError "images must be 4-D and output_shape a pair")).
Proof. split; reflexivity. Qed.

(** C4. With [output_shape] omitted, the [output_shape] handed to the
    operator holds the (height, width) of [images]: the operator is invoked
    once with it, and a result it returns has shape
    (batch, height, width, channels), so a batch of shape (2, 10, 10, 3)
    comes back with shape (2, 10, 10, 3). *)
Theorem transform_default_output_shape
    (ImageProjectiveTransformV3 : op_args -> exn + TFTensor scalar)
    (executing_eagerly : bool)
    (get_static_value : TFTensor Z -> option (Tensor Z))
    (tensor_str : TFTensor Z -> string)
    (images transforms : TFTensor scalar) (fill_mode : string)
    (fill_value : scalar) (interpolation : string) (name : option string)
    (n h w c : nat) :
  static_value_sound get_static_value ->
  op_shape_contract ImageProjectiveTransformV3 ->
  well_shaped images ->
  shape (value images) = [n; h; w; c] ->
  let output_shape :=
    resolve_output_shape executing_eagerly get_static_value images None in
  let a :=
    {| arg_images := images;
       arg_output_shape := output_shape;
       arg_fill_value := cast_float Float32 fill_value;
       arg_transforms := transforms;
       arg_fill_mode := upper fill_mode;
       arg_interpolation := upper interpolation |} in
  value output_shape
  = {| shape := [2%nat]; data := [Z.of_nat h; Z.of_nat w] |} /\
  transform ImageProjectiveTransformV3 executing_eagerly get_static_value
    tensor_str images transforms fill_mode fill_value interpolation None name
  = ([{| call_scope := py_or name "transform"; call_args := a |}],
     ImageProjectiveTransformV3 a) /\
  forall r,
    result (transform ImageProjectiveTransformV3 executing_eagerly
              get_static_value tensor_str images transforms fill_mode
              fill_value interpolation None name) = inr r ->
    shape (value r) = [n; h; w; c].
Proof.
  intros Hsound Hop Hwf Hshape output_shape a.
  destruct (default_output_shape executing_eagerly get_static_value images
              n h w c Hsound Hwf Hshape)
    as [Hv Hc].
  assert (Hrun :
    transform ImageProjectiveTransformV3 executing_eagerly get_static_value
      tensor_str images transforms fill_mode fill_value interpolation None name
    = ([{| call_scope := py_or name "transform"; call_args := a |}],
       ImageProjectiveTransformV3 a)).
  { apply (transform_dispatches ImageProjectiveTransformV3 executing_eagerly
             get_static_value tensor_str images transforms fill_mode
             fill_value interpolation None name Hc). }
  split; [exact Hv |]. split; [exact Hrun |].
  intros r Hr. rewrite Hrun in Hr. cbn [result snd] in Hr.
  apply (Hop a r n h w c h w Hr Hshape).
  subst a output_shape. cbn [arg_output_shape]. rewrite Hv. reflexivity.
Qed.

Lemma transform_default_output_shape_witness :
  exists r,
    result (transform blank_operator false constant_folding tensor_repr
              (zeros [2; 10; 10; 3]%nat) identity_transform "reflect"
              (SInt 0) "bilinear" None None) = inr r /\
    shape (value r) = [2; 10; 10; 3]%nat.
Proof.
  destruct (transform_default_output_shape blank_operator false
              constant_folding tensor_repr (zeros [2; 10; 10; 3]%nat)
              identity_transform "reflect" (SInt 0) "bilinear" None
              2 10 10 3 constant_folding_sound blank_operator_shape
              eq_refl eq_refl) as (_ & _ & H).
  eexists. split; [reflexivity |]. apply H. reflexivity.
Defined.

(** C5. [fill_mode] and [interpolation] reach the operator uppercased: a
    call whose [output_shape] passes the check is exactly one invocation of
    the operator, on the uppercased strings, and returns the operator's
    outcome. Two calls that differ only in the case of these strings (as
    [fill_mode="REFLECT"] and [fill_mode="reflect"]) therefore invoke the
    operator on the same arguments and return equal results. *)
Theorem transform_case_insensitive
    (ImageProjectiveTransformV3 : op_args -> exn + TFTensor scalar)
    (executing_eagerly : bool)
    (get_static_value : TFTensor Z -> option (Tensor Z))
    (tensor_str : TFTensor Z -> string)
    (images transforms : TFTensor scalar)
    (fill_mode fill_mode' : string) (fill_value : scalar)
    (interpolation interpolation' : string)
    (output_shape : option shape_arg) (name : option string) :
  upper fill_mode = upper fill_mode' ->
  upper interpolation = upper interpolation' ->
  let checked :=
    resolve_output_shape executing_eagerly get_static_value
      images output_shape in
  let a :=
    {| arg_images := images;
       arg_output_shape := checked;
       arg_fill_value := cast_float Float32 fill_value;
       arg_transforms := transforms;
       arg_fill_mode := upper fill_mode;
       arg_interpolation := upper interpolation |} in
  transform ImageProjectiveTransformV3 executing_eagerly get_static_value
    tensor_str images transforms fill_mode fill_value interpolation
    output_shape name
  = transform ImageProjectiveTransformV3 executing_eagerly get_static_value
      tensor_str images transforms fill_mode' fill_value interpolation'
      output_shape name /\
  (if is_compatible_with (get_shape checked) (Dims [Some 2%nat]) then
     transform ImageProjectiveTransformV3 executing_eagerly get_static_value
       tensor_str images transforms fill_mode' fill_value interpolation'
       output_shape name
     = ([{| call_scope := py_or name "transform"; call_args := a |}],
        ImageProjectiveTransformV3 a)
   else
     transform ImageProjectiveTransformV3 executing_eagerly get_static_value
       tensor_str images transforms fill_mode' fill_value interpolation'
       output_shape name
     = ([], inl (ValueError
                   (output_shape_error ++ tensor_str checked)%string))).
Proof.
  intros Hf Hi checked a. split.
  - unfold transform. rewrite Hf, Hi. reflexivity.
  - subst a checked. rewrite Hf, Hi.
    destruct (is_compatible_with _ _) eqn:Hc.
    + apply (transform_dispatches ImageProjectiveTransformV3
               executing_eagerly get_static_value tensor_str images
               transforms fill_mode' fill_value interpolation'
               output_shape name Hc).
    + apply (transform_rejects ImageProjectiveTransformV3
               executing_eagerly get_static_value tensor_str images
               transforms fill_mode' fill_value interpolation'
               output_shape name Hc).
Qed.

Lemma transform_case_insensitive_witness :
  transform blank_operator true constant_folding tensor_repr
    (zeros [2; 10; 10; 3]%nat) identity_transform "REFLECT" (SInt 0)
    "bilinear" None None
  = ([{| call_scope := "transform";
         call_args :=
           {| arg_images := zeros [2; 10; 10; 3]%nat;
              arg_output_shape :=
                {| static_shape := Dims [Some 2%nat];
                   value := {| shape := [2%nat]; data := [10; 10]%Z |} |};
              arg_fill_value := S754_zero false;
              arg_transforms := identity_transform;
              arg_fill_mode := "REFLECT";
              arg_interpolation := "BILINEAR" |} |}],
     blank_operator
       {| arg_images := zeros [2; 10; 10; 3]%nat;
          arg_output_shape :=
            {| static_shape := Dims [Some 2%nat];
               value := {| shape := [2%nat]; data := [10; 10]%Z |} |};
          arg_fill_value := S754_zero false;
          arg_transforms := identity_transform;
          arg_fill_mode := "REFLECT";
          arg_interpolation := "BILINEAR" |}) /\
  transform blank_operator true constant_folding tensor_repr
    (zeros [2; 10; 10; 3]%nat) identity_transform "reflect" (SInt 0)
    "Bilinear" None None
  = transform blank_operator true constant_folding tensor_repr
      (zeros [2; 10; 10; 3]%nat) identity_transform "REFLECT" (SInt 0)
      "bilinear" None None.
Proof.
  destruct (transform_case_insensitive blank_operator true constant_folding
              tensor_repr (zeros [2; 10; 10; 3]%nat) identity_transform
              "reflect" "REFLECT" (SInt 0) "Bilinear" "bilinear" None None
              eq_refl eq_refl) as [Heq Hcall].
  split; [exact Hcall | exact Heq].
Defined.

(** C10. The wrapper does not validate [fill_mode] or [interpolation]: for
    every two strings, once [output_shape] has passed its check the call runs
    exactly one operation, the operator on the uppercased strings, and its
    outcome is the operator's; an unsupported mode is therefore rejected by
    the operator or not at all. *)
Theorem transform_forwards_any_mode
    (ImageProjectiveTransformV3 : op_args -> exn + TFTensor scalar)
    (executing_eagerly : bool)
    (get_static_value : TFTensor Z -> option (Tensor Z))
    (tensor_str : TFTensor Z -> string)
    (images transforms : TFTensor scalar) (fill_mode : string)
    (fill_value : scalar) (interpolation : string)
    (output_shape : option shape_arg) (name : option string) :
  is_compatible_with
    (get_shape (resolve_output_shape executing_eagerly get_static_value
                  images output_shape))
    (Dims [Some 2%nat]) = true ->
  let a :=
    {| arg_images := images;
       arg_output_shape :=
         resolve_output_shape executing_eagerly get_static_value
           images output_shape;
       arg_fill_value := cast_float Float32 fill_value;
       arg_transforms := transforms;
       arg_fill_mode := upper fill_mode;
       arg_interpolation := upper interpolation |} in
  transform ImageProjectiveTransformV3 executing_eagerly get_static_value
    tensor_str images transforms fill_mode fill_value interpolation
    output_shape name
  = ([{| call_scope := py_or name "transform"; call_args := a |}],
     ImageProjectiveTransformV3 a).
Proof.
  intros H a.
  apply (transform_dispatches ImageProjectiveTransformV3 executing_eagerly
           get_static_value tensor_str images transforms fill_mode
           fill_value interpolation output_shape name H).
Qed.

Lemma transform_forwards_any_mode_witness :
  transform blank_operator true constant_folding tensor_repr
    (zeros [2; 10; 10; 3]%nat) identity_transform "mirror" (SInt 0)
    "bicubic"
    (Some (ArrayLike {| shape := [2%nat]; data := [5; 5]%Z |}))
    (Some "warp"%string)
  = ([{| call_scope := "warp";
         call_args :=
           {| arg_images := zeros [2; 10; 10; 3]%nat;
              arg_output_shape :=
                {| static_shape := Dims [Some 2%nat];
                   value := {| shape := [2%nat]; data := [5; 5]%Z |} |};
              arg_fill_value := S754_zero false;
              arg_transforms := identity_transform;
              arg_fill_mode := "MIRROR";
              arg_interpolation := "BICUBIC" |} |}],
     inl (InvalidArgumentError "unsupported fill_mode")).
Proof.
  apply (transform_forwards_any_mode blank_operator true constant_folding
           tensor_repr (zeros [2; 10; 10; 3]%nat) identity_transform
           "mirror" (SInt 0) "bicubic"
           (Some (ArrayLike {| shape := [2%nat]; data := [5; 5]%Z |}))
           (Some "warp"%string)).
  reflexivity.
Defined.

(** ** Further facts *)

Example upper_mixed_case : upper "Reflect_v3" = "REFLECT_V3"%string.
Proof. reflexivity. Qed.

(** At the very top of a format the same-range call can overflow: dividing
    the largest finite value by 255 rounds up in float16 and float64, and the
    product is infinite; in bfloat16 and in float32, the default dtype, the
    largest finite value comes back unchanged. *)
Example same_range_largest_finite :
  map (fun fmt =>
         remapped (ieee fmt) (SInt 0) (SInt 255) (SInt 0) (SInt 255)
           (SFloat (SFmax_float (prec fmt) (emax fmt))))
    [Float16; BFloat16; Float32; Float64]
  = [S754_infinity false;
     SFmax_float (prec BFloat16) (emax BFloat16);
     SFmax_float (prec Float32) (emax Float32);
     S754_infinity false].
Proof. vm_compute. reflexivity. Qed.

(** ** Floating-point edge cases *)

Section FloatEdges.

Variables p e : Z.

Lemma SFsub_non_finite_l (x y : spec_float) :
  is_finite x = false -> is_finite (SFsub p e x y) = false.
Proof.
  destruct x as [s | s | | s m ex]; try discriminate;
    destruct y as [s' | s' | | s' m' ey]; try reflexivity;
    destruct s, s'; reflexivity.
Qed.

Lemma SFdiv_non_finite_l (x y : spec_float) :
  is_finite x = false -> is_finite (SFdiv p e x y) = false.
Proof.
  destruct x as [s | s | | s m ex]; try discriminate;
    destruct y as [s' | s' | | s' m' ey]; reflexivity.
Qed.






End FloatEdges.



(** X11. In every floating-point dtype and for every pair of ranges, an
    element that is infinite or NaN after the cast stays infinite or NaN:
    the remapping never turns a non-finite value into a finite one. *)
Theorem non_finite_values_stay_non_finite
    (fmt : float_format) (images : Tensor scalar)
    (orig_min orig_max target_min target_max : scalar) :
  exists out,
    result (transform_value_range (ieee fmt) images
              [orig_min; orig_max] [target_min; target_max]) = inr out /\
    Forall2 (fun v r =>
               is_finite (cast_float fmt v) = false -> is_finite r = false)
      (data images) (data out).
Proof.
  rewrite transform_value_range_result.
  eexists. split; [reflexivity |]. unfold tmap; cbn [data].
  induction (data images) as [| v l IH]; cbn [map]; constructor;
    [| exact IH].
  intros Hv. unfold remapped; cbn [add mul truediv sub cast ieee].
  apply SFadd_non_finite, SFmul_non_finite, SFdiv_non_finite_l,
    SFsub_non_finite_l, Hv.
Qed.

Lemma remapped_nan_bound
    (fmt : float_format) (orig_min orig_max target_min target_max v : scalar) :
  cast_float fmt orig_min = S754_nan \/ cast_float fmt orig_max = S754_nan \/
  cast_float fmt target_min = S754_nan \/ cast_float fmt target_max = S754_nan ->
  remapped (ieee fmt) orig_min orig_max target_min target_max v = S754_nan.
Proof.
  unfold remapped; cbn [add mul truediv sub cast ieee].
  intros [H | [H | [H | H]]]; rewrite H.
  - destruct (cast_float fmt v); reflexivity.
  - destruct (SFsub _ _ (cast_float fmt v) _) as [s | s | | s m ex];
      reflexivity.
  - match goal with
    | |- SFadd _ _ ?x _ = _ => destruct x as [s | s | | s m ex]; reflexivity
    end.
  - destruct (SFdiv _ _ _ _) as [s | s | | s m ex];
      destruct (cast_float fmt target_min) as [s' | s' | | s' m' ex'];
      reflexivity.
Qed.

(** X12. In every floating-point dtype, a NaN among the four range bounds
    turns every element of the result into NaN, and no error is raised. *)
Theorem nan_bound_poisons_result
    (fmt : float_format) (images : Tensor scalar)
    (orig_min orig_max target_min target_max : scalar) :
  cast_float fmt orig_min = S754_nan \/ cast_float fmt orig_max = S754_nan \/
  cast_float fmt target_min = S754_nan \/ cast_float fmt target_max = S754_nan ->
  result (transform_value_range (ieee fmt) images
            [orig_min; orig_max] [target_min; target_max])
  = inr {| shape := shape images;
           data := map (fun _ => S754_nan) (data images) |}.
Proof.
  intros H. rewrite transform_value_range_result. unfold tmap.
  f_equal. f_equal. apply map_ext. intros v.
  apply remapped_nan_bound, H.
Qed.

Lemma nan_bound_poisons_result_witness :
  result (transform_value_range (ieee Float32)
            {| shape := [2%nat]; data := [SInt 0; SInt 128] |}
            [SInt 0; SInt 255] [SInt 0; SFloat S754_nan])
  = inr {| shape := [2%nat]; data := [S754_nan; S754_nan] |}.
Proof.
  apply (nan_bound_poisons_result Float32
           {| shape := [2%nat]; data := [SInt 0; SInt 128] |}
           (SInt 0) (SInt 255) (SInt 0) (SFloat S754_nan)).
  right. right. right. reflexivity.
Defined.

(** ** The cast of line 47 *)

(** X13. A tensor that already holds floats of the compute dtype goes
    through the cast of line 47 unchanged: the cast rounds nothing that the
    format represents. *)
Theorem cast_keeps_values_of_the_dtype
    (fmt : float_format) (images : Tensor spec_float) :
  Forall (fun f => valid_binary (prec fmt) (emax fmt) f = true)
    (data images) ->
  tf_cast_tensor (ieee fmt) (tmap SFloat images) = ([OpCast], inr images).
Proof.
  intros H. unfold tf_cast_tensor, bind, emit, ret, tmap; cbn.
  destruct images as [dims l]; cbn [shape data] in *.
  do 2 f_equal. f_equal. rewrite map_map.
  induction H as [| f l Hf _ IH]; cbn [map]; [reflexivity |].
  rewrite IH. f_equal. apply cast_float_valid, Hf.
Qed.

Lemma cast_keeps_values_of_the_dtype_witness :
  tf_cast_tensor (ieee Float32)
    (tmap SFloat
       {| shape := [3%nat];
          data := [S754_zero true; S754_finite false 16711680 (-16);
                   S754_infinity false] |})
  = ([OpCast],
     inr {| shape := [3%nat];
            data := [S754_zero true; S754_finite false 16711680 (-16);
                     S754_infinity false] |}).
Proof.
  apply (cast_keeps_values_of_the_dtype Float32
           {| shape := [3%nat];
              data := [S754_zero true; S754_finite false 16711680 (-16);
                       S754_infinity false] |}).
  repeat constructor.
Defined.

(** X14. The cast of an 8-bit image loses nothing: in every floating-point
    dtype (bfloat16 with its 8 bits of precision included) each of the 256
    byte values is cast to the float that stands for exactly that integer. *)
Theorem cast_of_bytes_is_exact (fmt : float_format) :
  map (fun v => exact_value (cast_float fmt v)) (data byte_values)
  = map (fun n => Some (inject_Z (Z.of_nat n))) (seq 0 256).
Proof. destruct fmt; vm_compute; reflexivity. Qed.

(** X15. From [0, 255] to [0, 1], in every floating-point dtype: the 256
    byte values come back inside [0, 1] and strictly increasing (no two
    levels collapse, in bfloat16 either), with 0 sent to 0 and 255 sent to
    exactly 1. *)
Theorem bytes_to_unit_interval (fmt : float_format) :
  exists out,
    result (transform_value_range (ieee fmt) byte_values
              [SInt 0; SInt 255] [SInt 0; SInt 1])
    = inr {| shape := [256%nat]; data := out |} /\
    forallb (fun r => SFleb (S754_zero false) r && SFleb r (dyadic fmt 1 0))
      out = true /\
    forallb (fun pair => SFltb (fst pair) (snd pair))
      (combine out (tl out)) = true /\
    hd S754_nan out = S754_zero false /\
    last out S754_nan = dyadic fmt 1 0.
Proof.
  destruct fmt; eexists; (split; [vm_compute; reflexivity |]);
    vm_compute; repeat split.
Qed.

(** ** The default output shape and the rank of the images *)

Lemma py_slice_length {A} (start stop : nat) (l : list A) :
  List.length (py_slice start stop l)
  = (Nat.min stop (List.length l) - start)%nat.
Proof.
  unfold py_slice. rewrite length_skipn, length_firstn. reflexivity.
Qed.

Section DefaultShape.

Variable executing_eagerly : bool.
Variable get_static_value : TFTensor Z -> option (Tensor Z).
Hypothesis sound : static_value_sound get_static_value.

Variable images : TFTensor scalar.
Hypothesis shaped : well_shaped images.

Lemma static_rank (ds : list (option nat)) :
  static_shape images = Dims ds ->
  List.length ds = List.length (shape (value images)).
Proof.
  intros Hs. unfold well_shaped, fully_defined in shaped.
  rewrite Hs in shaped. cbn in shaped.
  apply dims_compatible_length in shaped.
  rewrite length_map in shaped. exact shaped.
Qed.

(** With fewer than three dimensions the default shape has fewer than two
    entries, and the check sees it whenever the rank is known. *)
Lemma default_output_shape_low_rank :
  known_rank executing_eagerly images = true ->
  (List.length (shape (value images)) < 3)%nat ->
  is_compatible_with
    (get_shape (resolve_output_shape executing_eagerly get_static_value
                  images None))
    (Dims [Some 2%nat]) = false.
Proof.
  intros Hk Hr. unfold resolve_output_shape, known_rank in *.
  assert (Hn : forall n, (n < 3)%nat ->
                 is_compatible_with (Dims [Some (Nat.min 3 n - 1)%nat])
                   (Dims [Some 2%nat]) = false).
  { intros n Hlt. cbn [is_compatible_with dims_compatible dim_compatible].
    rewrite andb_true_r. apply Nat.eqb_neq. lia. }
  destruct executing_eagerly; cbn [negb orb] in *.
  - unfold get_shape, vector_slice, tf_shape;
      cbn [static_shape convert_to_tensor].
    apply Hn, Hr.
  - destruct (get_static_value _) as [v |] eqn:Hg.
    + apply sound in Hg. subst v.
      unfold get_shape, vector_slice, tf_shape, fully_defined;
        cbn [static_shape convert_to_tensor value shape data map].
      rewrite py_slice_length, length_map. apply Hn, Hr.
    + destruct (static_shape images) as [| ds] eqn:Hs; [discriminate |].
      unfold get_shape, vector_slice, tf_shape;
        cbn [static_shape convert_to_tensor].
      rewrite Hs, (static_rank ds Hs). apply Hn, Hr.
Qed.

(** With three dimensions or more the default shape holds dimensions 1
    and 2, and passes the check. *)
Lemma default_output_shape_dims (d0 d1 d2 : nat) (rest : list nat) :
  shape (value images) = d0 :: d1 :: d2 :: rest ->
  value (resolve_output_shape executing_eagerly get_static_value images None)
  = {| shape := [2%nat]; data := [Z.of_nat d1; Z.of_nat d2] |} /\
  is_compatible_with
    (get_shape (resolve_output_shape executing_eagerly get_static_value
                  images None))
    (Dims [Some 2%nat]) = true.
Proof.
  intros Hshape.
  assert (Hv : value (vector_slice 1 3 (tf_shape executing_eagerly images))
               = {| shape := [2%nat];
                    data := [Z.of_nat d1; Z.of_nat d2] |}).
  { unfold vector_slice, tf_shape; cbn [value data shape].
    rewrite Hshape. reflexivity. }
  unfold resolve_output_shape.
  destruct executing_eagerly; cbn [negb].
  - cbn [convert_to_tensor]. split; [exact Hv |].
    unfold get_shape, vector_slice, tf_shape; cbn [static_shape].
    rewrite Hshape. reflexivity.
  - destruct (get_static_value _) as [v |] eqn:Hg.
    + apply sound in Hg. subst v. rewrite Hv.
      cbn [convert_to_tensor value]. split; reflexivity.
    + cbn [convert_to_tensor]. split; [exact Hv |].
      unfold get_shape, vector_slice, tf_shape; cbn [static_shape].
      destruct (static_shape images) as [| ds] eqn:Hs; [reflexivity |].
      rewrite (static_rank ds Hs), Hshape. reflexivity.
Qed.

End DefaultShape.

(** X16. With [output_shape] omitted, images of rank below 3 (a single
    2-D image, say) are refused by the wrapper itself: it raises the
    [output_shape] [ValueError] and never reaches the operator. This holds
    in eager mode, and in graph mode when the rank is known statically. *)
Theorem transform_default_needs_rank_3
    (ImageProjectiveTransformV3 : op_args -> exn + TFTensor scalar)
    (executing_eagerly : bool)
    (get_static_value : TFTensor Z -> option (Tensor Z))
    (tensor_str : TFTensor Z -> string)
    (images transforms : TFTensor scalar) (fill_mode : string)
    (fill_value : scalar) (interpolation : string) (name : option string) :
  static_value_sound get_static_value ->
  well_shaped images ->
  known_rank executing_eagerly images = true ->
  (List.length (shape (value images)) < 3)%nat ->
  transform ImageProjectiveTransformV3 executing_eagerly get_static_value
    tensor_str images transforms fill_mode fill_value interpolation None name
  = ([], inl (ValueError
                (output_shape_error
                   ++ tensor_str
                        (resolve_output_shape executing_eagerly
                           get_static_value images None))%string)).
Proof.
  intros Hsound Hwf Hk Hr.
  apply (transform_rejects ImageProjectiveTransformV3 executing_eagerly
           get_static_value tensor_str images transforms fill_mode
           fill_value interpolation None name).
  apply default_output_shape_low_rank; assumption.
Qed.

Lemma transform_default_needs_rank_3_witness :
  transform blank_operator true constant_folding tensor_repr
    (zeros [10; 12]%nat) identity_transform "reflect" (SInt 0) "bilinear"
    None None
  = ([], inl (ValueError
                (output_shape_error
                   ++ "tf.Tensor([12], shape=(1,), dtype=int32)")%string)).
Proof.
  apply (transform_default_needs_rank_3 blank_operator true constant_folding
           tensor_repr (zeros [10; 12]%nat) identity_transform "reflect"
           (SInt 0) "bilinear" None constant_folding_sound);
    [reflexivity | reflexivity | simpl; lia].
Defined.

(** X17. With [output_shape] omitted, the wrapper takes dimensions 1 and 2
    of [images] whatever the rank (three or more): for an unbatched
    (height, width, channels) image the operator is invoked with
    [output_shape = (width, channels)]. *)
Theorem transform_default_takes_dims_1_2
    (ImageProjectiveTransformV3 : op_args -> exn + TFTensor scalar)
    (executing_eagerly : bool)
    (get_static_value : TFTensor Z -> option (Tensor Z))
    (tensor_str : TFTensor Z -> string)
    (images transforms : TFTensor scalar) (fill_mode : string)
    (fill_value : scalar) (interpolation : string) (name : option string)
    (d0 d1 d2 : nat) (rest : list nat) :
  static_value_sound get_static_value ->
  well_shaped images ->
  shape (value images) = d0 :: d1 :: d2 :: rest ->
  exists a,
    transform ImageProjectiveTransformV3 executing_eagerly get_static_value
      tensor_str images transforms fill_mode fill_value interpolation None name
    = ([{| call_scope := py_or name "transform"; call_args := a |}],
       ImageProjectiveTransformV3 a) /\
    arg_images a = images /\
    value (arg_output_shape a)
    = {| shape := [2%nat]; data := [Z.of_nat d1; Z.of_nat d2] |}.
Proof.
  intros Hsound Hwf Hshape.
  destruct (default_output_shape_dims executing_eagerly get_static_value
              Hsound images Hwf d0 d1 d2 rest Hshape) as [Hv Hc].
  eexists. split.
  - apply (transform_dispatches ImageProjectiveTransformV3 executing_eagerly
             get_static_value tensor_str images transforms fill_mode
             fill_value interpolation None name Hc).
  - cbn [arg_images arg_output_shape]. split; [reflexivity | exact Hv].
Qed.

Lemma transform_default_takes_dims_1_2_witness :
  exists a,
    transform blank_operator false no_static_value tensor_repr
      (zeros [4; 6; 3]%nat) identity_transform "reflect" (SInt 0)
      "bilinear" None None
    = ([{| call_scope := "transform"; call_args := a |}], blank_operator a) /\
    arg_images a = zeros [4; 6; 3]%nat /\
    value (arg_output_shape a)
    = {| shape := [2%nat]; data := [6; 3]%Z |}.
Proof.
  apply (transform_default_takes_dims_1_2 blank_operator false
           no_static_value tensor_repr (zeros [4; 6; 3]%nat)
           identity_transform "reflect" (SInt 0) "bilinear" None
           4 6 3 [] no_static_value_sound);
    reflexivity.
Defined.

(** X18. In graph mode, when neither the rank of [images] nor the value of
    the default shape is known statically, the wrapper cannot refuse
    anything: with [output_shape] omitted it invokes the operator whatever
    the rank of [images] turns out to be. *)
Theorem transform_default_unknown_rank
    (ImageProjectiveTransformV3 : op_args -> exn + TFTensor scalar)
    (get_static_value : TFTensor Z -> option (Tensor Z))
    (tensor_str : TFTensor Z -> string)
    (images transforms : TFTensor scalar) (fill_mode : string)
    (fill_value : scalar) (interpolation : string) (name : option string) :
  static_shape images = UnknownRank ->
  get_static_value (vector_slice 1 3 (tf_shape false images)) = None ->
  exists a,
    transform ImageProjectiveTransformV3 false get_static_value
      tensor_str images transforms fill_mode fill_value interpolation None name
    = ([{| call_scope := py_or name "transform"; call_args := a |}],
       ImageProjectiveTransformV3 a) /\
    data (value (arg_output_shape a))
    = py_slice 1 3 (map Z.of_nat (shape (value images))).
Proof.
  intros Hs Hg. eexists. split.
  - apply (transform_dispatches ImageProjectiveTransformV3 false
             get_static_value tensor_str images transforms fill_mode
             fill_value interpolation None name).
    unfold resolve_output_shape; cbn [negb]. rewrite Hg.
    unfold get_shape, vector_slice, tf_shape;
      cbn [static_shape convert_to_tensor].
    rewrite Hs. reflexivity.
  - cbn [arg_output_shape]. unfold resolve_output_shape; cbn [negb].
    rewrite Hg. reflexivity.
Qed.

Lemma transform_default_unknown_rank_witness :
  exists a,
    transform blank_operator false no_static_value tensor_repr
      {| static_shape := UnknownRank; value := value (zeros [10; 12]%nat) |}
      identity_transform "reflect" (SInt 0) "bilinear" None None
    = ([{| call_scope := "transform"; call_args := a |}], blank_operator a) /\
    data (value (arg_output_shape a)) = [12%Z].
Proof.
  apply (transform_default_unknown_rank blank_operator no_static_value
           tensor_repr
           {| static_shape := UnknownRank;
              value := value (zeros [10; 12]%nat) |}
           identity_transform "reflect" (SInt 0) "bilinear" None);
    reflexivity.
Defined.

(** ** The upper bound in floating point *)








(** ** A degenerate target range *)



